(** * NVL backend: relationship graph, chat addressing and feed

    A shallow embedding of [src/backend/server.js].  A handler of the feed,
    the relationship graph or the chats is a function from the database
    document read by [readDb] and the request (the [x-user-id] header, route
    parameters, body fields, and the clock readings the handler takes) to the
    document handed to [writeDb] and the HTTP reply.  Arrays are lists; an
    object found in an array is referred to by its position, so that two
    references to one object alias.  One request is one atomic step: the
    interleaving of concurrent requests and failures of the file system are
    outside the model.  JavaScript strings are modelled by [string] (code
    units below 256, compared code unit by code unit as
    [Array.prototype.sort] does). *)

From stdpp Require Import gmap strings list sorting.
From Stdlib Require Import ZArith Ascii DecimalString.


(** ** The pieces of the JavaScript runtime the handlers use *)

Module Js.

(** [Array.prototype.sort(cmp)].  ECMAScript requires the sort to be stable;
    for a consistent comparator the result is therefore unique, and is
    computed here by insertion: [a] stays in front of [b] unless
    [cmp a b > 0]. *)
Section Sort.
Context {A : Type} (cmp : A → A → Z).

Fixpoint insert (x : A) (l : list A) : list A :=
  match l with
  | [] => [x]
  | y :: l' => if (0 <? cmp x y)%Z then y :: insert x l' else x :: y :: l'
  end.

Definition sort (l : list A) : list A := foldr insert [] l.
End Sort.

(** The default comparator of [sort()] on strings: code-unit order. *)
Definition default_cmp (a b : string) : Z :=
  if String.ltb a b then (-1)%Z else if String.ltb b a then 1%Z else 0%Z.

(** [Array.prototype.join(sep)]. *)
Fixpoint join (sep : string) (l : list string) : string :=
  match l with
  | [] => ""
  | [x] => x
  | x :: l' => x +:+ sep +:+ join sep l'
  end.

(** [!v] for a body field that is a string or is missing. *)
Definition falsy (v : option string) : bool :=
  match v with
  | None => true
  | Some s => bool_decide (s = "")
  end.

(** [v || d]. *)
Definition or_else (v : option string) (d : option string) : option string :=
  if falsy v then d else v.

(** [Array.prototype.includes] on an array of strings. *)
Definition includes (x : string) (l : list string) : bool :=
  bool_decide (x ∈ l).

(** [Array.prototype.indexOf]: [None] stands for [-1]. *)
Definition indexOf (x : string) (l : list string) : option nat :=
  fst <$> list_find (λ y, y = x) l.

(** [String.prototype.toUpperCase] on one code unit below 256: the ASCII
    and the Latin-1 small letters move down by 32, the division sign (247)
    stays, and sharp s (223) becomes two code units.  The upper case of the
    micro sign (181) and of y with diaeresis (255) lies beyond 255, outside
    the strings modelled here; these two are left as they are. *)
Definition upper (c : ascii) : string :=
  let n := nat_of_ascii c in
  if (n =? 223)%nat then "SS"
  else if ((97 <=? n) && (n <=? 122) ||
           (224 <=? n) && (n <=? 254) && negb (n =? 247))%nat
       then String (ascii_of_nat (n - 32)) ""
       else String c "".

(** [s.charAt(0).toUpperCase()]. *)
Definition initial (s : string) : string :=
  match s with
  | EmptyString => ""
  | String c _ => upper c
  end.

(** [Date.now().toString()]. *)
Definition toString (n : Z) : string := NilZero.string_of_int (Z.to_int n).

End Js.

(** ** Chat addressing *)

(** [[req.user.id, friendId].sort().join('_')] *)
Definition chatId (userId friendId : string) : string :=
  Js.join "_" (Js.sort Js.default_cmp [userId; friendId]).

(** No occurrence of the separator ['_'] in an identifier. *)
Fixpoint sep_free (s : string) : Prop :=
  match s with
  | EmptyString => True
  | String c s' => c ≠ "_"%char ∧ sep_free s'
  end.

(** ** The database document *)

Module User.
Record t := mk {
  id : string; username : string; password : string;
  avatar : string; avatarImage : option string; bio : string }.
End User.

Module Comment.
Record t := mk {
  id : string; authorId : string; author : string; authorAvatar : string;
  authorAvatarImage : option string; text : string; time : string }.
End Comment.

Module Post.
Record t := mk {
  id : string; authorId : string; author : string; authorAvatar : string;
  authorAvatarImage : option string; text : option string;
  image : option string; createdAt : Z;
  likes : list string; comments : list Comment.t }.

Definition set_likes (l : list string) (p : t) : t :=
  mk (id p) (authorId p) (author p) (authorAvatar p) (authorAvatarImage p)
     (text p) (image p) (createdAt p) l (comments p).

Definition set_comments (l : list Comment.t) (p : t) : t :=
  mk (id p) (authorId p) (author p) (authorAvatar p) (authorAvatarImage p)
     (text p) (image p) (createdAt p) (likes p) l.
End Post.

Module Friends.
Record t := mk { userId : string; friends : list string }.

Definition set_friends (l : list string) (e : t) : t := mk (userId e) l.
End Friends.

Module FR.
Record t := mk { userId : string; sent : list string; received : list string }.

Definition set_sent (l : list string) (e : t) : t := mk (userId e) l (received e).
Definition set_received (l : list string) (e : t) : t := mk (userId e) (sent e) l.
End FR.

Module Message.
Inductive kind := text_kind | voice_kind.

Record t := mk {
  id : string; senderId : string; text : option string; type : kind;
  audioData : option string; time : string; read : bool }.
End Message.

(** A property of [db.messages]: a thread (an array of messages), or the
    empty object that registration stores under the new user's id. *)
Inductive Slot :=
| Thread (l : list Message.t)
| EmptyObject.

Record Db := mkDb {
  users : list User.t;
  posts : list Post.t;
  friends : list Friends.t;
  friendRequests : list FR.t;
  messages : gmap string Slot }.

Definition set_users (l : list User.t) (db : Db) : Db :=
  mkDb l (posts db) (friends db) (friendRequests db) (messages db).
Definition set_posts (l : list Post.t) (db : Db) : Db :=
  mkDb (users db) l (friends db) (friendRequests db) (messages db).
Definition set_friends (l : list Friends.t) (db : Db) : Db :=
  mkDb (users db) (posts db) l (friendRequests db) (messages db).
Definition set_friendRequests (l : list FR.t) (db : Db) : Db :=
  mkDb (users db) (posts db) (friends db) l (messages db).
Definition set_messages (m : gmap string Slot) (db : Db) : Db :=
  mkDb (users db) (posts db) (friends db) (friendRequests db) m.

(** [initialData] of [initDb]. *)
Definition initialData : Db := mkDb [] [] [] [] ∅.

(** What a handler does with the response: [res.json(body)],
    [res.status(code).json({ error })], or an uncaught [TypeError]. *)
Inductive Reply (A : Type) :=
| Json (body : A)
| Status (code : nat) (error : string)
| TypeError.
Arguments Json {A} body.
Arguments Status {A} code error.
Arguments TypeError {A}.

(** [{ success: true }] *)
Inductive Success := success.

(** What reading [db.messages[key]] yields: nothing, an own property of the
    parsed document, or something inherited from [Object.prototype]. *)
Inductive Property :=
| Absent
| Own (s : Slot)
| Inherited.

Definition object_prototype_keys : list string :=
  [ "constructor"; "hasOwnProperty"; "isPrototypeOf"; "propertyIsEnumerable";
    "toLocaleString"; "toString"; "valueOf"; "__proto__";
    "__defineGetter__"; "__defineSetter__"; "__lookupGetter__";
    "__lookupSetter__" ].

Definition property (m : gmap string Slot) (key : string) : Property :=
  match m !! key with
  | Some s => Own s
  | None => if bool_decide (key ∈ object_prototype_keys) then Inherited else Absent
  end.

(** ** Arrays of records addressed by [userId] *)

Section Entries.
Context {A : Type} (key : A → string) (fresh : string → A).

(** [arr.find(e => e.userId === k)], with the position of the object found:
    the position is the reference through which the handler mutates it. *)
Definition find_entry (k : string) (l : list A) : option (nat * A) :=
  list_find (λ e, key e = k) l.

(** [arr.find(e => e.userId === k) || fresh] *)
Definition entry_of (k : string) (l : list A) : A :=
  match find_entry k l with
  | Some (_, e) => e
  | None => fresh k
  end.

(** The local helpers [getFR] and [getFriends]: find the entry or push a
    fresh one; the reference returned aliases the array element. *)
Definition get_entry (k : string) (l : list A) : nat * list A :=
  match find_entry k l with
  | Some (i, _) => (i, l)
  | None => (length l, l ++ [fresh k])
  end.
End Entries.

Definition getFR : string → list FR.t → nat * list FR.t :=
  get_entry FR.userId (λ userId, FR.mk userId [] []).

Definition getFriends : string → list Friends.t → nat * list Friends.t :=
  get_entry Friends.userId (λ userId, Friends.mk userId []).

(** [if (!arr.includes(x)) arr.push(x)] *)
Definition push_new (x : string) (l : list string) : list string :=
  if Js.includes x l then l else l ++ [x].

(** [arr.filter(id => id !== x)] *)
Definition without (x : string) (l : list string) : list string :=
  filter (λ id, id ≠ x) l.

(** ** The request handlers *)

(** [authMiddleware]: resolve the [x-user-id] header against [db.users], then
    run the handler with [req.user]. *)
Definition authMiddleware {A : Type} (db : Db) (header : option string)
    (next : User.t → Db * Reply A) : Db * Reply A :=
  if Js.falsy header then (db, Status 401 "No user id")
  else
    match list_find (λ u, Some (User.id u) = header) (users db) with
    | None => (db, Status 401 "User not found")
    | Some (_, user) => next user
    end.

(** [POST /api/register]; [now] is the reading of [Date.now()]. *)
Definition register (db : Db) (username password : option string) (now : Z)
    : Db * Reply User.t :=
  match username, password with
  | Some name, Some pass =>
    if Js.falsy username || Js.falsy password
    then (db, Status 400 "Заполните все поля")
    else if bool_decide (Exists (λ u, User.username u = name) (users db))
    then (db, Status 400 "Имя уже занято")
    else
      let user := User.mk (Js.toString now) name pass (Js.initial name) None "" in
      let db' :=
        mkDb (users db ++ [user]) (posts db)
             (friends db ++ [Friends.mk (User.id user) []])
             (friendRequests db ++ [FR.mk (User.id user) [] []])
             (<[User.id user := EmptyObject]> (messages db)) in
      (db', Json user)
  | _, _ => (db, Status 400 "Заполните все поля")
  end.

(** [POST /api/me/avatar] *)
Definition updateAvatar (db : Db) (header avatarImage : option string)
    : Db * Reply (option string) :=
  authMiddleware db header (λ user,
    if Js.falsy avatarImage then (db, Status 400 "Нет изображения")
    else
      match list_find (λ u, User.id u = User.id user) (users db) with
      | Some (userIndex, _) =>
        let set u := User.mk (User.id u) (User.username u) (User.password u)
                             (User.avatar u) avatarImage (User.bio u) in
        (set_users (alter set userIndex (users db)) db, Json avatarImage)
      | None => (db, TypeError)
      end).

(** [GET /api/posts] *)
Definition listPosts (db : Db) (header : option string) : Db * Reply (list Post.t) :=
  authMiddleware db header (λ _,
    (db, Json (Js.sort (λ a b, Post.createdAt b - Post.createdAt a)%Z (posts db)))).

(** [POST /api/posts]; [now_id] and [now_created] are the two readings of
    [Date.now()], for [id] and for [createdAt]. *)
Definition createPost (db : Db) (header text image : option string)
    (now_id now_created : Z) : Db * Reply Post.t :=
  authMiddleware db header (λ user,
    if Js.falsy text && Js.falsy image then (db, Status 400 "Пустой пост")
    else
      let post :=
        Post.mk (Js.toString now_id) (User.id user) (User.username user)
                (User.avatar user) (User.avatarImage user)
                (Js.or_else text (Some "")) (Js.or_else image None)
                now_created [] [] in
      (set_posts (posts db ++ [post]) db, Json post)).

(** The body of the like handler on [post.likes]: push the user, or splice
    the first occurrence out. *)
Definition toggle (userId : string) (likes : list string) : list string :=
  match Js.indexOf userId likes with
  | None => likes ++ [userId]
  | Some idx => delete idx likes
  end.

(** [POST /api/posts/:postId/like] *)
Definition toggleLike (db : Db) (header : option string) (postId : string)
    : Db * Reply (list string) :=
  authMiddleware db header (λ user,
    match list_find (λ p, Post.id p = postId) (posts db) with
    | None => (db, Status 404 "Пост не найден")
    | Some (i, post) =>
      let like p := Post.set_likes (toggle (User.id user) (Post.likes p)) p in
      (set_posts (alter like i (posts db)) db, Json (Post.likes (like post)))
    end).

(** [POST /api/posts/:postId/comment]; [iso] is [new Date().toISOString()]. *)
Definition addComment (db : Db) (header : option string) (postId : string)
    (text : option string) (now : Z) (iso : string) : Db * Reply Comment.t :=
  authMiddleware db header (λ user,
    match text with
    | Some txt =>
      if Js.falsy text then (db, Status 400 "Пустой комментарий")
      else
        match list_find (λ p, Post.id p = postId) (posts db) with
        | None => (db, Status 404 "Пост не найден")
        | Some (i, post) =>
          let comment :=
            Comment.mk (Js.toString now) (User.id user) (User.username user)
                       (User.avatar user) (User.avatarImage user) txt iso in
          let push p := Post.set_comments (Post.comments p ++ [comment]) p in
          (set_posts (alter push i (posts db)) db, Json comment)
        end
    | None => (db, Status 400 "Пустой комментарий")
    end).

(** [GET /api/friends] *)
Definition listFriends (db : Db) (header : option string)
    : Db * Reply (list (string * string * string * option string)) :=
  authMiddleware db header (λ user,
    let friendsEntry :=
      entry_of Friends.userId (λ _, Friends.mk "" []) (User.id user) (friends db) in
    let found :=
      omap (λ fid, snd <$> list_find (λ u, User.id u = fid) (users db))
           (Friends.friends friendsEntry) in
    (db, Json ((λ u, (User.id u, User.username u, User.avatar u, User.avatarImage u))
               <$> found))).

(** [GET /api/friend-requests] *)
Definition listRequests (db : Db) (header : option string)
    : Db * Reply (list string * list string) :=
  authMiddleware db header (λ user,
    let fr := entry_of FR.userId (λ _, FR.mk "" [] []) (User.id user) (friendRequests db) in
    (db, Json (FR.sent fr, FR.received fr))).

(** Lines 252-257, on [db.friendRequests]: fetch both records, then push the
    target into [meFR.sent] and the sender into [targetFR.received] unless
    already there. *)
Definition sendRequest_records (me toUserId : string) (frs : list FR.t) : list FR.t :=
  let '(meFR, frs) := getFR me frs in
  let '(targetFR, frs) := getFR toUserId frs in
  let frs := alter (λ e, FR.set_sent (push_new toUserId (FR.sent e)) e) meFR frs in
  alter (λ e, FR.set_received (push_new me (FR.received e)) e) targetFR frs.

(** [POST /api/friend-requests]; a body without [toUserId] matches no user. *)
Definition sendRequest (db : Db) (header toUserId : option string)
    : Db * Reply Success :=
  authMiddleware db header (λ user,
    match toUserId with
    | None => (db, Status 404 "Пользователь не найден")
    | Some toUserId =>
      if bool_decide (toUserId = User.id user)
      then (db, Status 400 "Нельзя добавить себя")
      else
        match list_find (λ u, User.id u = toUserId) (users db) with
        | None => (db, Status 404 "Пользователь не найден")
        | Some _ =>
          let frs := sendRequest_records (User.id user) toUserId (friendRequests db) in
          (set_friendRequests frs db, Json success)
        end
    end).

(** Lines 286-290 and 318-322, on [db.friendRequests]: fetch both records,
    then filter the sender out of [meFR.received] and the actor out of
    [fromFR.sent]. *)
Definition resolve_records (me fromUserId : string) (frs : list FR.t) : list FR.t :=
  let '(meFR, frs) := getFR me frs in
  let '(fromFR, frs) := getFR fromUserId frs in
  let frs := alter (λ e, FR.set_received (without fromUserId (FR.received e)) e) meFR frs in
  alter (λ e, FR.set_sent (without me (FR.sent e)) e) fromFR frs.

(** Lines 292-298, on [db.friends]: fetch both edges, then push each user
    into the other's [friends] unless already there. *)
Definition befriend (me fromUserId : string) (fs : list Friends.t) : list Friends.t :=
  let '(meFriends, fs) := getFriends me fs in
  let '(fromFriends, fs) := getFriends fromUserId fs in
  let fs :=
    alter (λ e, Friends.set_friends (push_new fromUserId (Friends.friends e)) e)
          meFriends fs in
  alter (λ e, Friends.set_friends (push_new me (Friends.friends e)) e) fromFriends fs.

(** [POST /api/friend-requests/:fromUserId/accept] *)
Definition acceptRequest (db : Db) (header : option string) (fromUserId : string)
    : Db * Reply Success :=
  authMiddleware db header (λ user,
    let frs := resolve_records (User.id user) fromUserId (friendRequests db) in
    let fs := befriend (User.id user) fromUserId (friends db) in
    (set_friends fs (set_friendRequests frs db), Json success)).

(** [POST /api/friend-requests/:fromUserId/decline] *)
Definition declineRequest (db : Db) (header : option string) (fromUserId : string)
    : Db * Reply Success :=
  authMiddleware db header (λ user,
    let frs := resolve_records (User.id user) fromUserId (friendRequests db) in
    (set_friendRequests frs db, Json success)).

(** [GET /api/chats/:friendId] *)
Definition listMessages (db : Db) (header : option string) (friendId : string)
    : Db * Reply Property :=
  authMiddleware db header (λ user,
    match property (messages db) (chatId (User.id user) friendId) with
    | Absent => (db, Json (Own (Thread [])))
    | p => (db, Json p)
    end).

(** The shared tail of the two message handlers:
    [if (!db.messages[chatId]) db.messages[chatId] = [];
     db.messages[chatId].push(msg)]. *)
Definition pushMessage (db : Db) (chatId : string) (msg : Message.t)
    : Db * Reply Message.t :=
  match property (messages db) chatId with
  | Absent => (set_messages (<[chatId := Thread [msg]]> (messages db)) db, Json msg)
  | Own (Thread l) =>
    (set_messages (<[chatId := Thread (l ++ [msg])]> (messages db)) db, Json msg)
  | Own EmptyObject | Inherited => (db, TypeError)
  end.

(** [POST /api/chats/:friendId/message] *)
Definition sendTextMessage (db : Db) (header : option string) (friendId : string)
    (text : option string) (now : Z) (iso : string) : Db * Reply Message.t :=
  authMiddleware db header (λ user,
    if Js.falsy text then (db, Status 400 "Пустое сообщение")
    else
      let msg :=
        Message.mk (Js.toString now) (User.id user) text Message.text_kind None
                   iso false in
      pushMessage db (chatId (User.id user) friendId) msg).

(** [POST /api/chats/:friendId/voice] *)
Definition sendVoiceMessage (db : Db) (header : option string) (friendId : string)
    (audioData : option string) (now : Z) (iso : string) : Db * Reply Message.t :=
  authMiddleware db header (λ user,
    if Js.falsy audioData then (db, Status 400 "Нет аудио")
    else
      let msg :=
        Message.mk (Js.toString now) (User.id user) None Message.voice_kind
                   audioData iso false in
      pushMessage db (chatId (User.id user) friendId) msg).

(** ** Observations and request sequences *)

(** What [GET /api/friends] and [GET /api/friend-requests] read for a user:
    the first entry with that [userId], or empty sets. *)
Definition friendsOf (db : Db) (u : string) : list string :=
  Friends.friends (entry_of Friends.userId (λ _, Friends.mk "" []) u (friends db)).
Definition sentOf (db : Db) (u : string) : list string :=
  FR.sent (entry_of FR.userId (λ _, FR.mk "" [] []) u (friendRequests db)).
Definition receivedOf (db : Db) (u : string) : list string :=
  FR.received (entry_of FR.userId (λ _, FR.mk "" [] []) u (friendRequests db)).

(** The likes of the post a [postId] resolves to. *)
Definition likesOf (db : Db) (postId : string) : option (list string) :=
  (Post.likes ∘ snd) <$> list_find (λ p, Post.id p = postId) (posts db).


(** The thread stored under a chat id, empty when it was never created. *)
Definition threadOf (db : Db) (key : string) : list Message.t :=
  match messages db !! key with
  | Some (Thread l) => l
  | _ => []
  end.

(** The mutating requests of the API. *)
Inductive Request :=
| Register (username password : option string) (now : Z)
| UpdateAvatar (header avatarImage : option string)
| CreatePost (header text image : option string) (now_id now_created : Z)
| ToggleLike (header : option string) (postId : string)
| AddComment (header : option string) (postId : string) (text : option string)
             (now : Z) (iso : string)
| SendRequest (header toUserId : option string)
| AcceptRequest (header : option string) (fromUserId : string)
| DeclineRequest (header : option string) (fromUserId : string)
| SendTextMessage (header : option string) (friendId : string)
                  (text : option string) (now : Z) (iso : string)
| SendVoiceMessage (header : option string) (friendId : string)
                   (audioData : option string) (now : Z) (iso : string).

(** The document on disk after a request was served. *)
Definition serve (db : Db) (r : Request) : Db :=
  match r with
  | Register u p now => (register db u p now).1
  | UpdateAvatar h a => (updateAvatar db h a).1
  | CreatePost h t i n1 n2 => (createPost db h t i n1 n2).1
  | ToggleLike h p => (toggleLike db h p).1
  | AddComment h p t now iso => (addComment db h p t now iso).1
  | SendRequest h t => (sendRequest db h t).1
  | AcceptRequest h f => (acceptRequest db h f).1
  | DeclineRequest h f => (declineRequest db h f).1
  | SendTextMessage h f t now iso => (sendTextMessage db h f t now iso).1
  | SendVoiceMessage h f a now iso => (sendVoiceMessage db h f a now iso).1
  end.

Definition run (db : Db) (rs : list Request) : Db := foldl serve db rs.

(** The states a server started on a fresh database can be in. *)
Definition reachable (db : Db) : Prop := ∃ rs, db = run initialData rs.

(** The three requests that negotiate friendships. *)
Definition graph_request (r : Request) : Prop :=
  match r with
  | SendRequest _ _ | AcceptRequest _ _ | DeclineRequest _ _ => True
  | _ => False
  end.

(** The states after each request of a sequence, the start included. *)
Fixpoint trace (db : Db) (rs : list Request) : list Db :=
  match rs with
  | [] => [db]
  | r :: rs' => db :: trace (serve db r) rs'
  end.

(** Friendship symmetry and mirror consistency of the request records. *)
Definition symmetric (db : Db) : Prop :=
  ∀ a b, b ∈ friendsOf db a ↔ a ∈ friendsOf db b.
Definition mirror_consistent (db : Db) : Prop :=
  ∀ a b, b ∈ sentOf db a ↔ a ∈ receivedOf db b.

Definition graph_invariant (db : Db) : Prop := symmetric db ∧ mirror_consistent db.

(** Identifiers as the server hands them out: [register] renders the clock
    in decimal, so no user id holds the separator of [chatId], and the only
    keys of [db.messages] bound to an empty object are user ids. *)
Definition ids_wf (db : Db) : Prop :=
  (∀ u, u ∈ users db → sep_free (User.id u)) ∧
  (∀ key, messages db !! key = Some EmptyObject → sep_free key).

(** The shape of the names that [Object.prototype] defines: no separator at
    all, or a separator in front and one at the end. *)
Fixpoint sep_freeb (s : string) : bool :=
  match s with
  | EmptyString => true
  | String c s' => negb (Ascii.eqb c "_") && sep_freeb s'
  end.

Definition starts_with_sep (s : string) : bool :=
  match s with
  | String c _ => Ascii.eqb c "_"
  | EmptyString => false
  end.

Fixpoint ends_with_sep (s : string) : bool :=
  match s with
  | EmptyString => false
  | String c EmptyString => Ascii.eqb c "_"
  | String _ s' => ends_with_sep s'
  end.

Definition prototype_shape (s : string) : bool :=
  sep_freeb s || (starts_with_sep s && ends_with_sep s).

(** The user an [x-user-id] header authenticates. *)
Definition authenticates (db : Db) (header : option string) (user : User.t) : Prop :=
  header = Some (User.id user) ∧ User.id user ≠ "" ∧
  ∃ i, list_find (λ u, User.id u = User.id user) (users db) = Some (i, user).

(** The fresh records that [getFR] and [getFriends] push. *)
Abbreviation freshFR := (λ userId : string, FR.mk userId [] []).
Abbreviation freshFriends := (λ userId : string, Friends.mk userId []).
Abbreviation entryFR := (entry_of FR.userId freshFR).
Abbreviation entryFriends := (entry_of Friends.userId freshFriends).

(** ** Sample databases *)

Definition alice : User.t := User.mk "1" "alice" "a" "A" None "".
Definition bob : User.t := User.mk "2" "bob" "b" "B" None "".

(** Two registered users. *)
Definition two_users : Db :=
  run initialData
    [ Register (Some "alice") (Some "a") 1; Register (Some "bob") (Some "b") 2 ].

(** Two users whose graph records are not materialized yet. *)
Definition bare_users : Db := mkDb [alice; bob] [] [] [] ∅.

(** Two registered users and one post by the first. *)
Definition one_post : Db :=
  run two_users [ CreatePost (Some "1") (Some "hello") None 5 5 ].

(** Three registered users. *)
Definition carol : User.t := User.mk "3" "carol" "c" "C" None "".

Definition three_users : Db :=
  run initialData
    [ Register (Some "alice") (Some "a") 1; Register (Some "bob") (Some "b") 2;
      Register (Some "carol") (Some "c") 3 ].

(** Two registered users, the first has sent a request to the second. *)
Definition request_pending : Db :=
  run two_users [ SendRequest (Some "1") (Some "2") ].

(** Two posts created at one clock reading, then a later one. *)
Definition three_posts : Db :=
  run two_users
    [ CreatePost (Some "1") (Some "first") None 7 7;
      CreatePost (Some "2") (Some "second") None 7 7;
      CreatePost (Some "1") (Some "third") None 9 9 ].

(** ** The remaining handlers *)

(** The public projection of a user that the login, profile, friends and
    chats handlers answer with. *)
Definition publicView (u : User.t) : string * string * string * option string :=
  (User.id u, User.username u, User.avatar u, User.avatarImage u).

(** [POST /api/login]; a missing body field equals no stored string. *)
Definition login (db : Db) (username password : option string)
    : Db * Reply (string * string * string * option string) :=
  match list_find (λ u, Some (User.username u) = username ∧
                        Some (User.password u) = password) (users db) with
  | None => (db, Status 400 "Неверные данные")
  | Some (_, user) => (db, Json (publicView user))
  end.

(** [GET /api/me] *)
Definition me (db : Db) (header : option string)
    : Db * Reply (string * string * string * option string) :=
  authMiddleware db header (λ user, (db, Json (publicView user))).

(** The [lastMessage] field of a chat: a message, [null], or [undefined]. *)
Inductive LastMessage :=
| Last (m : Message.t)
| Null
| Undefined.

(** The names of [Object.prototype] whose value has no positive [length]:
    the prototype object itself and the functions without parameters. *)
Definition lengthless_prototype_keys : list string :=
  [ "__proto__"; "toLocaleString"; "toString"; "valueOf" ].

(** [chatMessages = db.messages[chatId] || [];
     chatMessages.length > 0 ? chatMessages[chatMessages.length - 1] : null] *)
Definition lastMessage (m : gmap string Slot) (chatId : string) : LastMessage :=
  match property m chatId with
  | Absent | Own EmptyObject => Null
  | Own (Thread l) => from_option Last Null (last l)
  | Inherited =>
    if bool_decide (chatId ∈ lengthless_prototype_keys) then Null else Undefined
  end.

(** [GET /api/chats] *)
Definition listChats (db : Db) (header : option string)
    : Db * Reply (list ((string * string * string * option string) * LastMessage)) :=
  authMiddleware db header (λ user,
    let friendsEntry :=
      entry_of Friends.userId (λ _, Friends.mk "" []) (User.id user) (friends db) in
    let chat friendId :=
      match list_find (λ u, User.id u = friendId) (users db) with
      | None => None
      | Some (_, friend) =>
        Some (publicView friend,
              lastMessage (messages db) (chatId (User.id user) friendId))
      end in
    (db, Json (omap chat (Friends.friends friendsEntry)))).

(** ** Further observations *)

(** The [x-user-id] header of a request; registration carries none. *)
Definition header_of (r : Request) : option (option string) :=
  match r with
  | Register _ _ _ => None
  | UpdateAvatar h _ | CreatePost h _ _ _ _ | ToggleLike h _
  | AddComment h _ _ _ _ | SendRequest h _ | AcceptRequest h _
  | DeclineRequest h _ | SendTextMessage h _ _ _ _
  | SendVoiceMessage h _ _ _ _ => Some h
  end.

(** An identifier that some user of the database carries. *)
Definition is_user (db : Db) (id : string) : Prop :=
  ∃ u, u ∈ users db ∧ User.id u = id.

(** What an account is made of besides the avatar image. *)
Definition credentials (u : User.t) : string * string * string * string :=
  (User.id u, User.username u, User.password u, User.avatar u).

(** A post as it was created: everything but likes and comments. *)
Definition postHead (p : Post.t)
    : string * string * string * string * option string * option string *
      option string * Z :=
  (Post.id p, Post.authorId p, Post.author p, Post.authorAvatar p,
   Post.authorAvatarImage p, Post.text p, Post.image p, Post.createdAt p).

(** A later state of a post: the same head, possibly more comments. *)
Definition post_grown (p p' : Post.t) : Prop :=
  postHead p' = postHead p ∧ Post.comments p `prefix_of` Post.comments p'.

Definition posts_grown (db db' : Db) : Prop :=
  ∀ i p, posts db !! i = Some p → ∃ p', posts db' !! i = Some p' ∧ post_grown p p'.

(** Thread keys hold the separator of [chatId]. *)
Definition threads_wf (db : Db) : Prop :=
  ∀ key l, messages db !! key = Some (Thread l) → ¬ sep_free key.

(** Every message of every thread was sent by a user, is stored under a chat
    key of its sender, and is unread. *)
Definition messages_wf (db : Db) : Prop :=
  ∀ key m, m ∈ threadOf db key →
    is_user db (Message.senderId m) ∧ Message.read m = false ∧
    ∃ peer, key = chatId (Message.senderId m) peer.

(** No duplicates in any like list, friend list or request list. *)
Definition likes_unique (db : Db) : Prop :=
  Forall (λ p, NoDup (Post.likes p)) (posts db).

Definition graph_unique (db : Db) : Prop :=
  Forall (λ e, NoDup (Friends.friends e)) (friends db) ∧
  Forall (λ e, NoDup (FR.sent e) ∧ NoDup (FR.received e)) (friendRequests db).

(** The payload of a message goes with its kind: a text and no audio, or
    audio and no text, and the one that is there is not empty. *)
Definition payload_ok (m : Message.t) : Prop :=
  match Message.type m with
  | Message.text_kind => Js.falsy (Message.text m) = false ∧ Message.audioData m = None
  | Message.voice_kind => Js.falsy (Message.audioData m) = false ∧ Message.text m = None
  end.

(** What one request can do to the database: nothing, or one of the
    mutations of the ten handlers. *)
Inductive step (db : Db) : Db → Prop :=
| step_none : step db db
| step_register name pass now :
    name ≠ "" → pass ≠ "" →
    (∀ u, u ∈ users db → User.username u ≠ name) →
    step db
      (mkDb (users db ++ [User.mk (Js.toString now) name pass (Js.initial name) None ""])
            (posts db)
            (friends db ++ [Friends.mk (Js.toString now) []])
            (friendRequests db ++ [FR.mk (Js.toString now) [] []])
            (<[Js.toString now := EmptyObject]> (messages db)))
| step_avatar i (f : User.t → User.t) :
    (∀ u, credentials (f u) = credentials u) →
    step db (set_users (alter f i (users db)) db)
| step_post post :
    Post.likes post = [] → Post.comments post = [] →
    step db (set_posts (posts db ++ [post]) db)
| step_like userId i :
    step db (set_posts
      (alter (λ p, Post.set_likes (toggle userId (Post.likes p)) p) i (posts db)) db)
| step_comment comment i :
    step db (set_posts
      (alter (λ p, Post.set_comments (Post.comments p ++ [comment]) p) i (posts db)) db)
| step_send userId toUserId :
    is_user db userId → is_user db toUserId → toUserId ≠ userId →
    step db (set_friendRequests
      (sendRequest_records userId toUserId (friendRequests db)) db)
| step_accept userId fromUserId :
    is_user db userId →
    step db (set_friends (befriend userId fromUserId (friends db))
      (set_friendRequests (resolve_records userId fromUserId (friendRequests db)) db))
| step_decline userId fromUserId :
    is_user db userId →
    step db (set_friendRequests
      (resolve_records userId fromUserId (friendRequests db)) db)
| step_message userId friendId msg :
    is_user db userId → userId ≠ "" →
    Message.senderId msg = userId → Message.read msg = false →
    payload_ok msg →
    messages db !! chatId userId friendId ≠ Some EmptyObject →
    step db (set_messages
      (<[chatId userId friendId :=
           Thread (threadOf db (chatId userId friendId) ++ [msg])]> (messages db)) db).

(** * Properties *)

(** ** Entries addressed by [userId] *)

Section EntriesFacts.
Context {A : Type} (key : A → string) (fresh : string → A).
Hypothesis key_fresh : ∀ k, key (fresh k) = k.

Abbreviation find := (find_entry key).
Abbreviation entry := (entry_of key fresh).
Abbreviation get := (get_entry key fresh).

Lemma find_entry_lookup k l i e :
  find k l = Some (i, e) → l !! i = Some e ∧ key e = k.
Proof. intros (? & ? & _)%list_find_Some. done. Qed.

Lemma find_entry_entry_of k l i e :
  find k l = Some (i, e) → e = entry k l.
Proof. unfold entry_of. by intros ->. Qed.

Lemma find_entry_snoc k k' l :
  find k' (l ++ [fresh k]) =
  match find k' l with
  | Some r => Some r
  | None => if decide (k = k') then Some (length l, fresh k) else None
  end.
Proof.
  unfold find_entry.
  destruct (list_find _ l) as [[i e]|] eqn:E.
  - by apply list_find_app_l.
  - rewrite list_find_app_r by done. simpl.
    rewrite key_fresh. by destruct (decide (k = k')).
Qed.

Lemma entry_of_snoc k k' l : entry k' (l ++ [fresh k]) = entry k' l.
Proof.
  unfold entry_of. rewrite find_entry_snoc.
  destruct (find k' l) as [[??]|]; [done|].
  by destruct (decide (k = k')) as [->|].
Qed.

Lemma get_entry_find k l i l' k' :
  get k l = (i, l') →
  find k' l' =
  if decide (k' = k) then Some (i, entry k l) else find k' l.
Proof.
  unfold get_entry, entry_of.
  destruct (find k l) as [[i0 e0]|] eqn:E; intros [= <- <-].
  - destruct (decide (k' = k)) as [->|]; done.
  - rewrite find_entry_snoc.
    destruct (decide (k' = k)) as [->|].
    + rewrite E. by rewrite decide_True.
    + destruct (find k' l); [done|]. by rewrite decide_False.
Qed.

Lemma get_entry_entry_of k l i l' k' :
  get k l = (i, l') → entry k' l' = entry k' l.
Proof.
  intros H. unfold entry_of at 1.
  rewrite (get_entry_find _ _ _ _ k' H).
  destruct (decide (k' = k)) as [->|]; done.
Qed.

Lemma alter_find (f : A → A) k l i e k' :
  (∀ x, key (f x) = key x) →
  find k l = Some (i, e) →
  find k' (alter f i l) =
  if decide (k' = k) then Some (i, f e) else find k' l.
Proof.
  intros Hf. unfold find_entry.
  revert i. induction l as [|x l IH]; intros i; [done|]. simpl.
  destruct (decide (key x = k)) as [Hx|Hx].
  - intros [= <- <-]. simpl. rewrite Hf.
    destruct (decide (k' = k)) as [->|Hk].
    + by rewrite decide_True.
    + rewrite !decide_False by congruence. done.
  - destruct (list_find _ l) as [[i0 e0]|] eqn:E; [|done].
    intros [= <- <-]. simpl.
    change (list_alter f i0 l) with (alter f i0 l).
    rewrite (IH i0 eq_refl).
    destruct (decide (k' = k)) as [->|Hk].
    + by rewrite decide_False.
    + done.
Qed.

Lemma alter_entry_of (f : A → A) k l i e k' :
  (∀ x, key (f x) = key x) →
  find k l = Some (i, e) →
  entry k' (alter f i l) =
  if decide (k' = k) then f (entry k l) else entry k' l.
Proof.
  intros Hf H. unfold entry_of at 1.
  rewrite (alter_find f _ _ _ _ k' Hf H).
  destruct (decide (k' = k)) as [->|]; [|done].
  by rewrite <- (find_entry_entry_of _ _ _ _ H).
Qed.

(** Altering an entry with a function that leaves it alone changes
    nothing. *)
Lemma alter_fixed (f : A → A) k l i e :
  find k l = Some (i, e) → f e = e → alter f i l = l.
Proof.
  intros [Hl _]%find_entry_lookup Hfe.
  apply list_eq. intros j. destruct (decide (j = i)) as [->|].
  - rewrite list_lookup_alter_eq, Hl. simpl. by rewrite Hfe.
  - by rewrite list_lookup_alter_ne.
Qed.

Lemma get_entry_found k l i e :
  find k l = Some (i, e) → get k l = (i, l).
Proof. unfold get_entry. by intros ->. Qed.

(** The two-entry update that every graph handler performs: fetch both
    entries, then mutate the first and the second through their
    references.  The references may alias. *)
Lemma get_get_alter_alter_find (f g : A → A) k1 k2 l i l1 j l2 k :
  (∀ x, key (f x) = key x) → (∀ x, key (g x) = key x) →
  get k1 l = (i, l1) → get k2 l1 = (j, l2) →
  find k (alter g j (alter f i l2)) =
    if decide (k = k2)
    then Some (j, g ((if decide (k = k1) then f else id) (entry k l)))
    else if decide (k = k1) then Some (i, f (entry k l)) else find k l.
Proof.
  intros Hf Hg H1 H2.
  assert (F1 : find k1 l1 = Some (i, entry k1 l)).
  { by rewrite (get_entry_find _ _ _ _ k1 H1), decide_True. }
  assert (F1' : find k1 l2 = Some (i, entry k1 l)).
  { destruct (decide (k1 = k2)) as [<-|Hne].
    - rewrite (get_entry_found _ _ _ _ F1) in H2. by injection H2 as <- <-.
    - by rewrite (get_entry_find _ _ _ _ k1 H2), decide_False. }
  assert (F2 : find k2 l2 = Some (j, entry k2 l)).
  { rewrite (get_entry_find _ _ _ _ k2 H2), decide_True by done.
    by rewrite (get_entry_entry_of _ _ _ _ k2 H1). }
  assert (F3 : find k2 (alter f i l2) =
               Some (j, (if decide (k2 = k1) then f else id) (entry k2 l))).
  { rewrite (alter_find f _ _ _ _ k2 Hf F1').
    destruct (decide (k2 = k1)) as [->|]; [|done].
    rewrite F1' in F2. by injection F2 as <-. }
  rewrite (alter_find g _ _ _ _ k Hg F3).
  destruct (decide (k = k2)) as [->|Hk2]; [done|].
  rewrite (alter_find f _ _ _ _ k Hf F1').
  destruct (decide (k = k1)) as [->|Hk1]; [done|].
  rewrite (get_entry_find _ _ _ _ k H2), decide_False by done.
  by rewrite (get_entry_find _ _ _ _ k H1), decide_False.
Qed.

Lemma get_get_alter_alter (f g : A → A) k1 k2 l i l1 j l2 k :
  (∀ x, key (f x) = key x) → (∀ x, key (g x) = key x) →
  get k1 l = (i, l1) → get k2 l1 = (j, l2) →
  entry k (alter g j (alter f i l2)) =
    (if decide (k = k2) then g else id)
      ((if decide (k = k1) then f else id) (entry k l)).
Proof.
  intros Hf Hg H1 H2. unfold entry_of at 1.
  rewrite (get_get_alter_alter_find f g _ _ _ _ _ _ _ k Hf Hg H1 H2).
  destruct (decide (k = k2)); [done|].
  destruct (decide (k = k1)); done.
Qed.

(** Repeating the two-entry update is the identity once both functions
    leave their entries alone. *)
Lemma get_get_alter_alter_fixed (f g : A → A) k1 k2 l e1 e2 n1 n2 :
  find k1 l = Some (n1, e1) → find k2 l = Some (n2, e2) →
  f e1 = e1 → g e2 = e2 →
  ∃ i j, get k1 l = (i, l) ∧ get k2 l = (j, l) ∧ alter g j (alter f i l) = l.
Proof.
  intros F1 F2 Hf Hg. exists n1, n2.
  rewrite (get_entry_found _ _ _ _ F1), (get_entry_found _ _ _ _ F2).
  rewrite (alter_fixed f _ _ _ _ F1 Hf), (alter_fixed g _ _ _ _ F2 Hg). done.
Qed.
End EntriesFacts.

(** ** A run of the API *)

Example run_alice_bob :
  let db := run initialData
    [ Register (Some "alice") (Some "a") 1; Register (Some "bob") (Some "b") 2;
      SendRequest (Some "1") (Some "2"); AcceptRequest (Some "2") "1";
      SendRequest (Some "1") (Some "2"); AcceptRequest (Some "1") "1" ] in
  (friendsOf db "1", sentOf db "1", receivedOf db "2") = (["2"; "1"], ["2"], ["1"]).
Proof. vm_compute. reflexivity. Qed.

(** ** Authentication *)

Lemma authMiddleware_next {A} db header user (next : User.t → Db * Reply A) :
  authenticates db header user → authMiddleware db header next = next user.
Proof.
  intros (-> & Hne & i & Hfind). unfold authMiddleware. simpl.
  rewrite bool_decide_false by done.
  erewrite list_find_ext; [by rewrite Hfind|].
  intros u. simpl. split; congruence.
Qed.

Lemma authMiddleware_cases {A} db header (next : User.t → Db * Reply A) :
  (∃ user, authenticates db header user ∧ authMiddleware db header next = next user) ∨
  (∃ msg, authMiddleware db header next = (db, Status 401 msg)).
Proof.
  unfold authMiddleware. destruct header as [h|]; simpl; [|by eauto].
  case_bool_decide; [by eauto|].
  destruct (list_find _ _) as [[i user]|] eqn:E; [|by eauto].
  left. exists user. split; [|done].
  pose proof E as (_ & [= Hid] & _)%list_find_Some. subst h.
  split_and!; [done..|]. exists i.
  erewrite list_find_ext; [exact E|]. intros u. simpl. split; congruence.
Qed.

(** Reasoning about a handler behind [authMiddleware]: either the request is
    turned away with 401 and the database is untouched, or the handler runs
    for the authenticated user. *)
Lemma authMiddleware_ind {A} db header (next : User.t → Db * Reply A)
    (P : Db * Reply A → Prop) :
  (∀ msg, P (db, Status 401 msg)) →
  (∀ user, authenticates db header user → P (next user)) →
  P (authMiddleware db header next).
Proof.
  intros H401 Hnext.
  destruct (authMiddleware_cases db header next) as [(user & Hauth & ->)|(msg & ->)]; auto.
Qed.

(** What the two read handlers of the graph answer. *)
Lemma listRequests_reads db header user :
  authenticates db header user →
  listRequests db header =
    (db, Json (sentOf db (User.id user), receivedOf db (User.id user))).
Proof. intros Hauth. unfold listRequests. by rewrite (authMiddleware_next _ _ _ _ Hauth). Qed.

Lemma listFriends_reads db header user :
  authenticates db header user →
  ∃ views, listFriends db header = (db, Json views) ∧
           views.*1.*1.*1 ⊆ friendsOf db (User.id user).
Proof.
  intros Hauth. unfold listFriends. rewrite (authMiddleware_next _ _ _ _ Hauth).
  eexists. split; [done|]. fold (friendsOf db (User.id user)).
  intros x (v1 & -> & (v2 & -> & (v3 & -> & (u & -> & Hu)%list_elem_of_fmap)%list_elem_of_fmap)%list_elem_of_fmap)%list_elem_of_fmap.
  simpl. apply list_elem_of_omap in Hu as (fid & Hfid & Hfind).
  apply fmap_Some in Hfind as ([j u'] & Hfind & ->).
  apply list_find_Some in Hfind as (_ & <- & _). done.
Qed.

(** ** The friend-request records and the friendship edges *)

Lemma sentOf_entry db u : sentOf db u = FR.sent (entryFR u (friendRequests db)).
Proof. unfold sentOf, entry_of. by destruct (find_entry _ _ _) as [[??]|]. Qed.

Lemma receivedOf_entry db u :
  receivedOf db u = FR.received (entryFR u (friendRequests db)).
Proof. unfold receivedOf, entry_of. by destruct (find_entry _ _ _) as [[??]|]. Qed.

Lemma friendsOf_entry db u :
  friendsOf db u = Friends.friends (entryFriends u (friends db)).
Proof. unfold friendsOf, entry_of. by destruct (find_entry _ _ _) as [[??]|]. Qed.

Lemma elem_of_push_new x y l : x ∈ push_new y l ↔ x ∈ l ∨ x = y.
Proof.
  unfold push_new, Js.includes. case_bool_decide.
  - split; [by left|]. intros [?| ->]; done.
  - rewrite elem_of_app, list_elem_of_singleton. done.
Qed.

Lemma elem_of_without x y l : x ∈ without y l ↔ x ∈ l ∧ x ≠ y.
Proof. unfold without. rewrite list_elem_of_filter. tauto. Qed.

Lemma push_new_present x l : x ∈ l → push_new x l = l.
Proof. intros H. unfold push_new, Js.includes. by rewrite bool_decide_true. Qed.

Lemma without_absent x l : x ∉ l → without x l = l.
Proof.
  intros H. unfold without. induction l as [|y l IH]; [done|].
  apply not_elem_of_cons in H as [Hxy Hl].
  rewrite filter_cons_True by done. by rewrite IH.
Qed.

Lemma sendRequest_success db header user to :
  authenticates db header user → to ≠ User.id user →
  is_Some (list_find (λ u, User.id u = to) (users db)) →
  sendRequest db header (Some to) =
    (set_friendRequests (sendRequest_records (User.id user) to (friendRequests db)) db,
     Json success).
Proof.
  intros Hauth Hne [[j target] Hfind]. unfold sendRequest.
  rewrite (authMiddleware_next _ _ _ _ Hauth).
  rewrite bool_decide_false by done. by rewrite Hfind.
Qed.

Lemma sendRequest_records_entry me to frs k :
  entryFR k (sendRequest_records me to frs) =
  (if decide (k = to) then λ e, FR.set_received (push_new me (FR.received e)) e else id)
    ((if decide (k = me) then λ e, FR.set_sent (push_new to (FR.sent e)) e else id)
       (entryFR k frs)).
Proof.
  unfold sendRequest_records.
  destruct (getFR me frs) as [i l1] eqn:H1. destruct (getFR to l1) as [j l2] eqn:H2.
  by apply (get_get_alter_alter FR.userId freshFR) with (l1 := l1).
Qed.

Lemma resolve_records_entry me from frs k :
  entryFR k (resolve_records me from frs) =
  (if decide (k = from) then λ e, FR.set_sent (without me (FR.sent e)) e else id)
    ((if decide (k = me) then λ e, FR.set_received (without from (FR.received e)) e else id)
       (entryFR k frs)).
Proof.
  unfold resolve_records.
  destruct (getFR me frs) as [i l1] eqn:H1. destruct (getFR from l1) as [j l2] eqn:H2.
  by apply (get_get_alter_alter FR.userId freshFR) with (l1 := l1).
Qed.

Lemma befriend_entry me from fs k :
  entryFriends k (befriend me from fs) =
  (if decide (k = from) then λ e, Friends.set_friends (push_new me (Friends.friends e)) e else id)
    ((if decide (k = me) then λ e, Friends.set_friends (push_new from (Friends.friends e)) e else id)
       (entryFriends k fs)).
Proof.
  unfold befriend.
  destruct (getFriends me fs) as [i l1] eqn:H1.
  destruct (getFriends from l1) as [j l2] eqn:H2.
  by apply (get_get_alter_alter Friends.userId freshFriends) with (l1 := l1).
Qed.

Lemma acceptRequest_success db header user from :
  authenticates db header user →
  acceptRequest db header from =
    (set_friends (befriend (User.id user) from (friends db))
       (set_friendRequests (resolve_records (User.id user) from (friendRequests db)) db),
     Json success).
Proof. intros Hauth. unfold acceptRequest. by rewrite (authMiddleware_next _ _ _ _ Hauth). Qed.

Lemma declineRequest_success db header user from :
  authenticates db header user →
  declineRequest db header from =
    (set_friendRequests (resolve_records (User.id user) from (friendRequests db)) db,
     Json success).
Proof. intros Hauth. unfold declineRequest. by rewrite (authMiddleware_next _ _ _ _ Hauth). Qed.

(** *** Membership after each mutation *)

Lemma sent_after_send me to frs a b :
  b ∈ FR.sent (entryFR a (sendRequest_records me to frs)) ↔
  b ∈ FR.sent (entryFR a frs) ∨ (a = me ∧ b = to).
Proof.
  rewrite sendRequest_records_entry.
  destruct (decide (a = to)), (decide (a = me)); simpl;
    rewrite ?elem_of_push_new; intuition congruence.
Qed.

Lemma received_after_send me to frs a b :
  a ∈ FR.received (entryFR b (sendRequest_records me to frs)) ↔
  a ∈ FR.received (entryFR b frs) ∨ (a = me ∧ b = to).
Proof.
  rewrite sendRequest_records_entry.
  destruct (decide (b = to)), (decide (b = me)); simpl;
    rewrite ?elem_of_push_new; intuition congruence.
Qed.

Lemma sent_after_resolve me from frs a b :
  b ∈ FR.sent (entryFR a (resolve_records me from frs)) ↔
  b ∈ FR.sent (entryFR a frs) ∧ ¬ (a = from ∧ b = me).
Proof.
  rewrite resolve_records_entry.
  destruct (decide (a = from)), (decide (a = me)); simpl;
    rewrite ?elem_of_without; intuition congruence.
Qed.

Lemma received_after_resolve me from frs a b :
  a ∈ FR.received (entryFR b (resolve_records me from frs)) ↔
  a ∈ FR.received (entryFR b frs) ∧ ¬ (a = from ∧ b = me).
Proof.
  rewrite resolve_records_entry.
  destruct (decide (b = from)), (decide (b = me)); simpl;
    rewrite ?elem_of_without; intuition congruence.
Qed.

Lemma friends_after_befriend me from fs a b :
  b ∈ Friends.friends (entryFriends a (befriend me from fs)) ↔
  b ∈ Friends.friends (entryFriends a fs) ∨ (a = me ∧ b = from) ∨ (a = from ∧ b = me).
Proof.
  rewrite befriend_entry.
  destruct (decide (a = from)), (decide (a = me)); simpl;
    rewrite ?elem_of_push_new; intuition congruence.
Qed.

(** *** Every request keeps the graph invariants *)

(** The graph observations only read [db.friends] and [db.friendRequests]. *)
Lemma graph_invariant_frame db db' :
  friends db' = friends db → friendRequests db' = friendRequests db →
  graph_invariant db → graph_invariant db'.
Proof.
  intros Hf Hr [Hs Hm]. split; intros a b.
  - specialize (Hs a b). unfold friendsOf in *. by rewrite Hf.
  - specialize (Hm a b). unfold sentOf, receivedOf in *. by rewrite Hr.
Qed.

Lemma sendRequest_records_mirror db me to :
  mirror_consistent db →
  mirror_consistent (set_friendRequests (sendRequest_records me to (friendRequests db)) db).
Proof.
  intros Hm a b. specialize (Hm a b).
  rewrite sentOf_entry, receivedOf_entry in *. simpl.
  rewrite sent_after_send, received_after_send. tauto.
Qed.

Lemma resolve_records_mirror db me from :
  mirror_consistent db →
  mirror_consistent (set_friendRequests (resolve_records me from (friendRequests db)) db).
Proof.
  intros Hm a b. specialize (Hm a b).
  rewrite sentOf_entry, receivedOf_entry in *. simpl.
  rewrite sent_after_resolve, received_after_resolve. tauto.
Qed.

Lemma befriend_symmetric db me from :
  symmetric db → symmetric (set_friends (befriend me from (friends db)) db).
Proof.
  intros Hs a b. specialize (Hs a b).
  rewrite !friendsOf_entry in *. simpl.
  rewrite !friends_after_befriend. tauto.
Qed.

Lemma sendRequest_invariant db header toUserId :
  graph_invariant db → graph_invariant (sendRequest db header toUserId).1.
Proof.
  intros [Hs Hm]. unfold sendRequest.
  apply authMiddleware_ind; [done|]. intros user _.
  destruct toUserId as [to|]; [|done].
  case_bool_decide; [done|].
  destruct (list_find _ _); [|done]. simpl.
  split; [|by apply sendRequest_records_mirror].
  intros a b. specialize (Hs a b). by unfold friendsOf in *.
Qed.

Lemma acceptRequest_invariant db header fromUserId :
  graph_invariant db → graph_invariant (acceptRequest db header fromUserId).1.
Proof.
  intros [Hs Hm]. unfold acceptRequest.
  apply authMiddleware_ind; [done|]. intros user _. simpl. split.
  - by apply (befriend_symmetric
      (set_friendRequests (resolve_records (User.id user) fromUserId (friendRequests db)) db)).
  - intros a b.
    by apply (resolve_records_mirror db (User.id user) fromUserId Hm a b).
Qed.

Lemma declineRequest_invariant db header fromUserId :
  graph_invariant db → graph_invariant (declineRequest db header fromUserId).1.
Proof.
  intros [Hs Hm]. unfold declineRequest.
  apply authMiddleware_ind; [done|]. intros user _. simpl.
  split; [|by apply resolve_records_mirror].
  intros a b. specialize (Hs a b). by unfold friendsOf in *.
Qed.

(** Handlers that leave the graph collections alone. *)
Ltac frame_handler :=
  apply authMiddleware_ind; [done|]; intros;
  repeat first [case_match | case_bool_decide]; simpl; done.

Lemma register_invariant db username password now :
  graph_invariant db → graph_invariant (register db username password now).1.
Proof.
  intros [Hs Hm]. unfold register.
  repeat first [case_match | case_bool_decide]; try done. simpl.
  split; intros a b.
  - specialize (Hs a b). rewrite !friendsOf_entry in *. simpl.
    by rewrite !(entry_of_snoc Friends.userId freshFriends).
  - specialize (Hm a b). rewrite sentOf_entry, receivedOf_entry in *. simpl.
    by rewrite !(entry_of_snoc FR.userId freshFR).
Qed.

Lemma pushMessage_frame db key msg :
  friends (pushMessage db key msg).1 = friends db ∧
  friendRequests (pushMessage db key msg).1 = friendRequests db.
Proof. unfold pushMessage. by repeat case_match. Qed.

Lemma serve_frame db r :
  ¬ graph_request r → (∀ u p now, r ≠ Register u p now) →
  friends (serve db r) = friends db ∧ friendRequests (serve db r) = friendRequests db.
Proof.
  intros Hg Hr. destruct r; simpl in *; try done.
  - by destruct (Hr username password now).
  - unfold updateAvatar. frame_handler.
  - unfold createPost. frame_handler.
  - unfold toggleLike. frame_handler.
  - unfold addComment. frame_handler.
  - unfold sendTextMessage. apply authMiddleware_ind; [done|]. intros.
    case_match; [done|]. apply pushMessage_frame.
  - unfold sendVoiceMessage. apply authMiddleware_ind; [done|]. intros.
    case_match; [done|]. apply pushMessage_frame.
Qed.

Lemma serve_invariant db r : graph_invariant db → graph_invariant (serve db r).
Proof.
  intros Hinv. destruct r;
    try solve [ by apply register_invariant | by apply sendRequest_invariant
              | by apply acceptRequest_invariant | by apply declineRequest_invariant ];
    match goal with
    | |- graph_invariant (serve db ?r) =>
      destruct (serve_frame db r) as [Hf Hr];
        [simpl; tauto | intros; discriminate | by apply (graph_invariant_frame db)]
    end.
Qed.

Lemma trace_invariant db rs :
  graph_invariant db → Forall graph_invariant (trace db rs).
Proof.
  revert db. induction rs as [|r rs IH]; intros db Hinv; simpl.
  - by constructor.
  - constructor; [done|]. by apply IH, serve_invariant.
Qed.

Lemma graph_invariant_initialData : graph_invariant initialData.
Proof. split; intros a b; split; intros H; inversion H. Qed.

(** C1. Starting from a database whose friendship graph is symmetric and
    whose request records are mirror-consistent, the database after every
    request of any sequence of send, accept and decline requests (whoever the
    caller and whatever the arguments) is again symmetric and
    mirror-consistent. *)
Theorem graph_requests_keep_symmetry (db : Db) (rs : list Request) :
  Forall graph_request rs →
  symmetric db → mirror_consistent db →
  Forall (λ db', symmetric db' ∧ mirror_consistent db') (trace db rs).
Proof.
  intros Hrs. revert db.
  induction Hrs as [|r rs Hr _ IH]; intros db Hs Hm; simpl.
  - constructor; [done|constructor].
  - constructor; [done|].
    assert (Hstep : graph_invariant (serve db r)).
    { destruct r; try done; simpl.
      + by apply sendRequest_invariant.
      + by apply acceptRequest_invariant.
      + by apply declineRequest_invariant. }
    destruct Hstep as [Hs' Hm']. by apply IH.
Qed.

(** ** Chat addressing *)

Section ChatId.
Implicit Types a b c d x y r : string.

Lemma ltb_asym a b : String.ltb a b = true → String.ltb b a = false.
Proof.
  unfold String.ltb. rewrite (String.compare_antisym b a).
  by destruct (String.compare a b).
Qed.

Lemma ltb_irrefl a : String.ltb a a = false.
Proof. destruct (String.ltb a a) eqn:E; [|done]. by rewrite <- (ltb_asym _ _ E). Qed.

Lemma ltb_total a b :
  String.ltb a b = false → String.ltb b a = false → a = b.
Proof.
  unfold String.ltb. rewrite (String.compare_antisym b a).
  destruct (String.compare a b) eqn:E; try done.
  intros _ _. by apply String.compare_eq_iff.
Qed.

(** The key is the smaller identifier, the separator, the larger one. *)
Lemma chatId_unfold a b :
  chatId a b = if String.ltb b a then b +:+ "_" +:+ a else a +:+ "_" +:+ b.
Proof.
  unfold chatId, Js.sort, Js.default_cmp. simpl.
  destruct (String.ltb a b) eqn:Hab.
  - by rewrite (ltb_asym _ _ Hab).
  - by destruct (String.ltb b a).
Qed.

Lemma chatId_comm a b : chatId a b = chatId b a.
Proof.
  rewrite !chatId_unfold.
  destruct (String.ltb b a) eqn:Hba.
  - by rewrite (ltb_asym _ _ Hba).
  - destruct (String.ltb a b) eqn:Hab; [done|].
    by rewrite (ltb_total _ _ Hab Hba).
Qed.

(** A key splits at its first separator. *)
Lemma sep_split x x' y y' :
  sep_free x → sep_free x' →
  x +:+ "_" +:+ y = x' +:+ "_" +:+ y' → x = x' ∧ y = y'.
Proof.
  revert x'. induction x as [|c x IH]; intros [|c' x']; simpl.
  - intros _ _ H. by simplify_eq/=.
  - intros _ [Hc _] H. by simplify_eq/=.
  - intros [Hc _] _ H. by simplify_eq/=.
  - intros [_ Hx] [_ Hx'] [= -> H]. by destruct (IH x' Hx Hx' H) as [-> ->].
Qed.

Lemma sep_prefix a b c d :
  sep_free a → a +:+ "_" +:+ b = c +:+ "_" +:+ d → ∃ r, c = a +:+ r.
Proof.
  revert c. induction a as [|x a IH]; intros c; simpl; [by eauto|].
  intros [Hx Ha]. destruct c as [|x' c]; simpl.
  - intros H. by simplify_eq/=.
  - intros [= -> H]. destruct (IH c Ha H) as [r ->]. by exists r.
Qed.

Lemma compare_append_ne_Lt a r : String.compare (a +:+ r) a ≠ Lt.
Proof.
  induction a as [|x a IH]; simpl.
  - by destruct r.
  - pose proof (Ascii.compare_antisym x x) as E.
    by destruct (Ascii.compare x x).
Qed.

Lemma length_append a b :
  String.length (a +:+ b) = String.length a + String.length b.
Proof. induction a as [|x a IH]; simpl; [done|]. by rewrite IH. Qed.

Lemma append_inv_tail a b c : a +:+ c = b +:+ c → a = b.
Proof.
  revert b. induction a as [|x a IH]; intros [|y b]; simpl; [done|..].
  - intros H. apply (f_equal String.length) in H.
    rewrite !length_append in H. simpl in H. lia.
  - intros H. apply (f_equal String.length) in H.
    rewrite !length_append in H. simpl in H. lia.
  - intros H. change (String x (a +:+ c) = String y (b +:+ c)) in H.
    injection H as -> H. by rewrite (IH b H).
Qed.

(** Identifiers without the separator: distinct unordered pairs never
    share a key. *)
Lemma chatId_inj_sep_free a b c d :
  sep_free a → sep_free b → sep_free c → sep_free d →
  chatId a b = chatId c d → (a = c ∧ b = d) ∨ (a = d ∧ b = c).
Proof.
  intros Ha Hb Hc Hd. rewrite !chatId_unfold.
  destruct (String.ltb b a), (String.ltb d c); intros H;
    apply sep_split in H as [-> ->]; auto.
Qed.

(** One side without the separator: the threads of that user with two
    different peers never share a key, whatever the peers are. *)
Lemma chatId_inj_peer a b c : sep_free a → chatId a b = chatId a c → b = c.
Proof.
  intros Ha. rewrite !chatId_unfold.
  destruct (String.ltb b a) eqn:Hb, (String.ltb c a) eqn:Hc; intros H.
  - by apply append_inv_tail in H.
  - symmetry in H. destruct (sep_prefix _ _ _ _ Ha H) as [r ->].
    unfold String.ltb in Hb. by destruct (String.compare _ a) eqn:E;
      [| destruct (compare_append_ne_Lt a r) |].
  - destruct (sep_prefix _ _ _ _ Ha H) as [r ->].
    unfold String.ltb in Hc. by destruct (String.compare _ a) eqn:E;
      [| destruct (compare_append_ne_Lt a r) |].
  - by apply (inj (String.app a)), (inj (String.app "_")) in H.
Qed.
End ChatId.

Lemma string_of_uint_sep_free d : sep_free (NilEmpty.string_of_uint d).
Proof. induction d; simpl; done. Qed.

(** The ids [register] assigns, [Date.now().toString()], hold no separator. *)
Lemma toString_sep_free n : sep_free (Js.toString n).
Proof.
  unfold Js.toString. destruct (Z.to_int n) as [d|d]; simpl.
  - destruct d; simpl; auto using string_of_uint_sep_free.
  - split; [done|]. destruct d; simpl; auto using string_of_uint_sep_free.
Qed.

(** Between arbitrary strings the key is not injective.  The chat routes
    take the peer from the URL unchecked, so user 1 writing to ["2_3"] and
    user 3 writing to ["1_2"] meet in one thread. *)
Lemma chatId_not_injective :
  ¬ (∀ a b c d, chatId a b = chatId c d → (a = c ∧ b = d) ∨ (a = d ∧ b = c)).
Proof.
  intros H. by destruct (H "1" "2_3" "3" "1_2" eq_refl) as [[? _]|[? _]].
Qed.

(** The same for one fixed side and two different peers. *)
Example chatId_not_injective_peer :
  chatId "_a_" "a_" = chatId "_a_" "_a" ∧ "a_" ≠ "_a".
Proof. done. Qed.

(** ** Self-friendship and pending requests between friends *)

(** C3 fails on the code: the accept handler, unlike the send handler, never
    compares [fromUserId] with the caller; both edge references then alias
    one record and the caller is pushed into their own friend list. *)
Theorem acceptRequest_self_friendship :
  let db0 := (register initialData (Some "alice") (Some "pw") 1).1 in
  let r := acceptRequest db0 (Some "1") "1" in
  reachable r.1 ∧ r.2 = Json success ∧ friendsOf r.1 "1" = ["1"].
Proof.
  split_and!; [|done..].
  by exists [Register (Some "alice") (Some "pw") 1; AcceptRequest (Some "1") "1"].
Qed.

(** C4 as stated fails: after a request was accepted the sender can send
    again, and the send handler does not look at [db.friends]. *)
Lemma pending_request_between_friends :
  ¬ (∀ db, reachable db →
       ∀ a b, b ∈ friendsOf db a → (b ∉ sentOf db a) ∧ (a ∉ receivedOf db b)).
Proof.
  intros H.
  destruct (H (run initialData
    [ Register (Some "alice") (Some "a") 1; Register (Some "bob") (Some "b") 2;
      SendRequest (Some "1") (Some "2"); AcceptRequest (Some "2") "1";
      SendRequest (Some "1") (Some "2") ])
    ltac:(by eexists) "1" "2") as [Hsent _].
  - vm_compute. by constructor.
  - apply Hsent. vm_compute. by constructor.
Qed.

(** C4, amended.  Accepting clears the accepted request in the step that
    establishes the edge: right after an authenticated user accepts the
    pending request of another user, the sender is not in the user's
    [received], the user is not in the sender's [sent], each is in the
    other's friend list, and nobody has entered their own friend list. *)
Theorem acceptRequest_clears_request db header user fromUserId :
  authenticates db header user →
  fromUserId ≠ User.id user →
  fromUserId ∈ receivedOf db (User.id user) →
  let db' := (acceptRequest db header fromUserId).1 in
  (fromUserId ∉ receivedOf db' (User.id user)) ∧
  (User.id user ∉ sentOf db' fromUserId) ∧
  fromUserId ∈ friendsOf db' (User.id user) ∧
  User.id user ∈ friendsOf db' fromUserId ∧
  ∀ x, x ∈ friendsOf db' x ↔ x ∈ friendsOf db x.
Proof.
  intros Hauth Hne _. rewrite (acceptRequest_success _ _ _ _ Hauth). simpl.
  split_and!.
  - rewrite receivedOf_entry. simpl. rewrite received_after_resolve. tauto.
  - rewrite sentOf_entry. simpl. rewrite sent_after_resolve. tauto.
  - rewrite friendsOf_entry. simpl. rewrite friends_after_befriend. tauto.
  - rewrite friendsOf_entry. simpl. rewrite friends_after_befriend. tauto.
  - intros x. rewrite !friendsOf_entry. simpl. rewrite friends_after_befriend.
    intuition congruence.
Qed.

(** ** Sending twice, declining what was never sent *)

Lemma sendRequest_records_find me to frs k :
  let push_sent e := FR.set_sent (push_new to (FR.sent e)) e in
  let push_received e := FR.set_received (push_new me (FR.received e)) e in
  ∃ i j,
    find_entry FR.userId k (sendRequest_records me to frs) =
    if decide (k = to)
    then Some (j, push_received ((if decide (k = me) then push_sent else id) (entryFR k frs)))
    else if decide (k = me) then Some (i, push_sent (entryFR k frs))
         else find_entry FR.userId k frs.
Proof.
  intros push_sent push_received. unfold sendRequest_records.
  destruct (getFR me frs) as [i l1] eqn:H1. destruct (getFR to l1) as [j l2] eqn:H2.
  exists i, j.
  by apply (get_get_alter_alter_find FR.userId freshFR (λ _, eq_refl)
              push_sent push_received) with (l1 := l1).
Qed.

Lemma sendRequest_records_idem me to frs :
  me ≠ to →
  sendRequest_records me to (sendRequest_records me to frs) =
  sendRequest_records me to frs.
Proof.
  intros Hne.
  destruct (sendRequest_records_find me to frs me) as (i & j0 & Hme).
  destruct (sendRequest_records_find me to frs to) as (i0 & j & Hto).
  rewrite decide_False, decide_True in Hme by done.
  rewrite decide_True, decide_False in Hto by done. simpl in Hto.
  edestruct (get_get_alter_alter_fixed FR.userId freshFR
    (λ e, FR.set_sent (push_new to (FR.sent e)) e)
    (λ e, FR.set_received (push_new me (FR.received e)) e))
    as (i' & j' & G1 & G2 & Heq); [exact Hme | exact Hto | ..].
  - simpl. rewrite (push_new_present to) by (apply elem_of_push_new; auto). done.
  - simpl. rewrite (push_new_present me) by (apply elem_of_push_new; auto). done.
  - unfold sendRequest_records at 1. unfold getFR. by rewrite G1, G2.
Qed.

(** C5. For an authenticated user and an existing target other than the
    user, a second [sendRequest] answers success and leaves the database
    exactly as the first one left it. *)
Theorem sendRequest_idempotent db header user toUserId :
  authenticates db header user →
  toUserId ≠ User.id user →
  (∃ target, target ∈ users db ∧ User.id target = toUserId) →
  let once := sendRequest db header (Some toUserId) in
  once.2 = Json success ∧
  sendRequest once.1 header (Some toUserId) = (once.1, Json success).
Proof.
  intros Hauth Hne (target & Hin & Hid).
  assert (Hfind : is_Some (list_find (λ u, User.id u = toUserId) (users db))).
  { by apply (list_find_elem_of _ _ target). }
  rewrite (sendRequest_success _ _ _ _ Hauth Hne Hfind). simpl. split; [done|].
  rewrite (sendRequest_success _ header user toUserId); [|done..]. simpl.
  by rewrite sendRequest_records_idem.
Qed.

(** C6. In a mirror-consistent database, when an authenticated user declines
    a sender that is not in the user's [received], the answer is success,
    [db.friends] is untouched (no edge appears), and every user's friends,
    sent and received sets read as before. *)
Theorem declineRequest_never_sent db header user fromUserId :
  authenticates db header user →
  mirror_consistent db →
  fromUserId ∉ receivedOf db (User.id user) →
  let r := declineRequest db header fromUserId in
  r.2 = Json success ∧
  friends r.1 = friends db ∧
  ∀ u, friendsOf r.1 u = friendsOf db u ∧
       sentOf r.1 u = sentOf db u ∧
       receivedOf r.1 u = receivedOf db u.
Proof.
  intros Hauth Hm Hnot. rewrite (declineRequest_success _ _ _ _ Hauth). simpl.
  split_and!; [done..|]. intros u. split; [done|].
  assert (Hsent : User.id user ∉ sentOf db fromUserId).
  { intros H. by apply Hnot, Hm. }
  rewrite !sentOf_entry, !receivedOf_entry in *. simpl.
  rewrite resolve_records_entry.
  destruct (decide (u = fromUserId)) as [Hf|Hf], (decide (u = User.id user)) as [Hu|Hu];
    simpl; rewrite ?without_absent; try done.
  all: first [by rewrite Hu | by rewrite Hf].
Qed.

(** ** The feed *)

Section SortFacts.
Context {A : Type} (cmp : A → A → Z).

Lemma insert_Permutation x l : Js.insert cmp x l ≡ₚ x :: l.
Proof.
  induction l as [|y l IH]; simpl; [done|].
  destruct (0 <? cmp x y)%Z; [|done].
  rewrite IH. apply Permutation_swap.
Qed.

Lemma sort_Permutation l : Js.sort cmp l ≡ₚ l.
Proof.
  induction l as [|x l IH]; simpl; [done|].
  by rewrite insert_Permutation, IH.
Qed.
End SortFacts.

(** Sorting with the comparator [(a, b) => key b - key a]. *)
Section SortDescending.
Context {A : Type} (key : A → Z).

Abbreviation descending := (λ a b : A, (key b - key a)%Z).
Abbreviation newer_first := (λ a b : A, (key b ≤ key a)%Z).

Lemma insert_descending x l :
  StronglySorted newer_first l →
  StronglySorted newer_first (Js.insert descending x l).
Proof.
  induction 1 as [|y l Hl IH Hy]; simpl.
  - repeat constructor.
  - destruct (0 <? key y - key x)%Z eqn:E.
    + apply Z.ltb_lt in E. constructor; [done|].
      rewrite insert_Permutation. constructor; [lia|done].
    + apply Z.ltb_ge in E. constructor; [by constructor|].
      constructor; [lia|]. eapply Forall_impl; [exact Hy|]. simpl. lia.
Qed.

Lemma sort_descending l : StronglySorted newer_first (Js.sort descending l).
Proof.
  induction l as [|x l IH]; simpl; [constructor|]. by apply insert_descending.
Qed.

(** Stability: the elements with one key keep their order. *)
Lemma insert_stable t x l :
  filter (λ a, key a = t) (Js.insert descending x l) =
  filter (λ a, key a = t) (x :: l).
Proof.
  induction l as [|y l IH]; simpl; [done|].
  destruct (0 <? key y - key x)%Z eqn:E; [|done].
  apply Z.ltb_lt in E.
  rewrite (filter_cons _ y), IH, !(filter_cons _ x), (filter_cons _ y).
  destruct (decide (key y = t)), (decide (key x = t)); try done. lia.
Qed.

Lemma sort_stable t l :
  filter (λ a, key a = t) (Js.sort descending l) = filter (λ a, key a = t) l.
Proof.
  induction l as [|x l IH]; simpl; [done|].
  rewrite insert_stable, !filter_cons, IH. done.
Qed.
End SortDescending.

(** C9. For an authenticated caller [listPosts] answers with all posts of
    the store (a permutation of [db.posts]), newest first, and posts with
    the same [createdAt] in the order they have in the store. *)
Theorem listPosts_sorted_stable db header user :
  authenticates db header user →
  ∃ l, listPosts db header = (db, Json l) ∧
       l ≡ₚ posts db ∧
       StronglySorted (λ p q, (Post.createdAt q ≤ Post.createdAt p)%Z) l ∧
       ∀ t, filter (λ p, Post.createdAt p = t) l =
            filter (λ p, Post.createdAt p = t) (posts db).
Proof.
  intros Hauth. unfold listPosts. rewrite (authMiddleware_next _ _ _ _ Hauth).
  eexists. split_and!; [done|..].
  - apply sort_Permutation.
  - apply (sort_descending Post.createdAt).
  - intros t. apply (sort_stable Post.createdAt).
Qed.

Lemma falsy_spec v : Js.falsy v = true ↔ v = None ∨ v = Some "".
Proof.
  destruct v as [s|]; simpl.
  - rewrite bool_decide_eq_true. split; [intros ->; by right | by intros [|[= ->]]].
  - split; auto.
Qed.

(** C8. For an authenticated caller [createPost] answers 400 (empty post)
    exactly when text and image are both missing or empty, and then the
    database is unchanged.  Otherwise it appends one post to [db.posts],
    answers with it, and the post carries the caller's id, username, avatar
    glyph and avatar image as they are in the database at that moment. *)
Theorem createPost_empty_or_appended db header user text image now_id now_created :
  authenticates db header user →
  let empty := (text = None ∨ text = Some "") ∧ (image = None ∨ image = Some "") in
  let r := createPost db header text image now_id now_created in
  ((∃ msg, r.2 = Status 400 msg) ↔ empty) ∧
  (empty → r = (db, Status 400 "Пустой пост")) ∧
  (¬ empty →
   ∃ post, r = (set_posts (posts db ++ [post]) db, Json post) ∧
     Post.authorId post = User.id user ∧
     Post.author post = User.username user ∧
     Post.authorAvatar post = User.avatar user ∧
     Post.authorAvatarImage post = User.avatarImage user ∧
     Post.createdAt post = now_created ∧
     Post.likes post = [] ∧ Post.comments post = []).
Proof.
  intros Hauth empty. unfold createPost. rewrite (authMiddleware_next _ _ _ _ Hauth).
  subst empty. rewrite <- !falsy_spec.
  destruct (Js.falsy text), (Js.falsy image); simpl.
  1: { split_and!; [split; eauto | done | intros H; by destruct H]. }
  all: split_and!;
    [ split; [by intros [? [=]] | by intros [? ?]]
    | by intros [? ?]
    | intros _; eexists; by split_and! ].
Qed.

(** *** Likes *)

Lemma indexOf_None u l : Js.indexOf u l = None ↔ u ∉ l.
Proof.
  unfold Js.indexOf. rewrite fmap_None, list_find_None, Forall_forall.
  split; [intros H Hin; by apply (H u)|]. intros H x Hin ->. done.
Qed.

Lemma indexOf_Some u l i : Js.indexOf u l = Some i → l !! i = Some u.
Proof.
  unfold Js.indexOf. rewrite fmap_Some. intros ([j x] & Hfind & ->).
  by apply list_find_Some in Hfind as (? & -> & _).
Qed.

Lemma toggle_absent u l : u ∉ l → toggle u l = l ++ [u].
Proof. intros H. unfold toggle. by apply indexOf_None in H as ->. Qed.

Lemma toggle_present u l :
  u ∈ l → ∃ i, l !! i = Some u ∧ toggle u l = delete i l.
Proof.
  intros H. unfold toggle. destruct (Js.indexOf u l) as [i|] eqn:E.
  - exists i. split; [|done]. by apply indexOf_Some.
  - by apply indexOf_None in E.
Qed.



Lemma toggle_NoDup u l : NoDup l → NoDup (toggle u l).
Proof.
  intros Hnd. destruct (decide (u ∈ l)) as [Hin|Hin].
  - destruct (toggle_present u l Hin) as (i & Hi & ->).
    rewrite (delete_Permutation l i u Hi) in Hnd. by apply NoDup_cons in Hnd as [_ ?].
  - rewrite toggle_absent by done. apply NoDup_app. split_and!; [done| |apply NoDup_singleton].
    intros x Hx ->%list_elem_of_singleton. done.
Qed.


Lemma authenticates_users db db' header user :
  users db' = users db → authenticates db header user → authenticates db' header user.
Proof. intros Hu (? & ? & ?). unfold authenticates. by rewrite Hu. Qed.

Lemma alter_as_insert {A} (f : A → A) i (l : list A) x :
  l !! i = Some x → alter f i l = <[i := f x]> l.
Proof.
  intros Hi. apply list_eq. intros j. destruct (decide (j = i)) as [->|].
  - rewrite list_lookup_alter_eq, Hi, list_lookup_insert_eq;
      [done|by eapply lookup_lt_Some].
  - by rewrite list_lookup_alter_ne, list_lookup_insert_ne.
Qed.




(** ** Messages *)

Lemma sep_freeb_spec s : sep_freeb s = true ↔ sep_free s.
Proof.
  induction s as [|c s IH]; simpl; [done|].
  rewrite andb_true_iff, negb_true_iff, IH.
  destruct (Ascii.eqb_spec c "_"); split; intros []; done.
Qed.

Lemma sep_free_app x y : sep_free (x +:+ y) ↔ sep_free x ∧ sep_free y.
Proof.
  induction x as [|c x IH]; [simpl; tauto|].
  change (String c x +:+ y) with (String c (x +:+ y)). simpl. rewrite IH. tauto.
Qed.

Lemma sep_free_key x y : ¬ sep_free (x +:+ "_" +:+ y).
Proof. rewrite sep_free_app. intros [_ [? _]]. done. Qed.

Lemma ends_with_sep_app x y : y ≠ "" → ends_with_sep (x +:+ y) = ends_with_sep y.
Proof.
  intros Hy. induction x as [|c x IH]; [done|].
  change (String c x +:+ y) with (String c (x +:+ y)). simpl.
  rewrite IH. by destruct (x +:+ y) eqn:E; [destruct x, y|].
Qed.

Lemma ends_with_sep_free s : sep_free s → ends_with_sep s = false.
Proof.
  induction s as [|c s IH]; [done|]. intros [Hc Hs]. simpl.
  destruct s; [|by apply IH]. by apply Ascii.eqb_neq.
Qed.

(** A chat key of a non-empty identifier without separator is not a name
    that [Object.prototype] defines. *)
Lemma chatId_prototype_shape a b :
  a ≠ "" → sep_free a → prototype_shape (chatId a b) = false.
Proof.
  intros Hne Ha. rewrite chatId_unfold. unfold prototype_shape.
  apply orb_false_iff. split.
  - apply not_true_is_false. rewrite sep_freeb_spec.
    destruct (String.ltb b a); apply sep_free_key.
  - apply andb_false_iff. destruct (String.ltb b a).
    + right. rewrite ends_with_sep_app by (by destruct a).
      change ("_" +:+ a) with (String "_" a). simpl.
      destruct a; [done|]. by apply ends_with_sep_free.
    + left. destruct a as [|c a]; [done|]. destruct Ha as [Hc _].
      simpl. by apply Ascii.eqb_neq.
Qed.

Lemma chatId_not_prototype a b :
  a ≠ "" → sep_free a → chatId a b ∉ object_prototype_keys.
Proof.
  intros Hne Ha Hin.
  assert (Hall : Forall (λ k, prototype_shape k = true) object_prototype_keys).
  { unfold object_prototype_keys. repeat constructor. }
  rewrite Forall_forall in Hall. apply Hall in Hin.
  by rewrite chatId_prototype_shape in Hin.
Qed.

Lemma chatId_not_sep_free a b : ¬ sep_free (chatId a b).
Proof. rewrite chatId_unfold. destruct (String.ltb b a); apply sep_free_key. Qed.

Lemma pushMessage_appends db key msg :
  messages db !! key ≠ Some EmptyObject → key ∉ object_prototype_keys →
  pushMessage db key msg =
    (set_messages (<[key := Thread (threadOf db key ++ [msg])]> (messages db)) db,
     Json msg).
Proof.
  intros Hobj Hproto. unfold pushMessage, property, threadOf.
  destruct (messages db !! key) as [[l|]|]; [done..|].
  by rewrite bool_decide_false.
Qed.

Lemma threadOf_insert db key l :
  threadOf (set_messages (<[key := Thread l]> (messages db)) db) key = l.
Proof. unfold threadOf. simpl. by rewrite lookup_insert_eq. Qed.

(** *** Identifiers in reachable databases *)


Lemma ids_wf_frame db db' :
  users db' = users db → messages db' = messages db → ids_wf db → ids_wf db'.
Proof. intros Hu Hm [H1 H2]. unfold ids_wf. by rewrite Hu, Hm. Qed.

Lemma register_ids_wf db username password now :
  ids_wf db → ids_wf (register db username password now).1.
Proof.
  intros [Hu Hm]. unfold register.
  repeat first [case_match | case_bool_decide]; try done. simpl. split; simpl.
  - intros u [Hin| ->%list_elem_of_singleton]%elem_of_app; [by apply Hu|].
    apply toString_sep_free.
  - intros key. rewrite lookup_insert. case_decide as Hk; [|by apply Hm].
    intros _. rewrite <- Hk. apply toString_sep_free.
Qed.

Lemma elem_of_alter_key {A} (key : A → string) (f : A → A) i (l : list A) x :
  (∀ y, key (f y) = key y) → x ∈ alter f i l → ∃ y, y ∈ l ∧ key x = key y.
Proof.
  intros Hf (j & Hj)%list_elem_of_lookup.
  destruct (decide (j = i)) as [->|Hne].
  - rewrite list_lookup_alter_eq in Hj. apply fmap_Some in Hj as (y & Hy & ->).
    exists y. split; [by eapply list_elem_of_lookup_2|done].
  - rewrite list_lookup_alter_ne in Hj by done.
    exists x. split; [by eapply list_elem_of_lookup_2|done].
Qed.

Lemma updateAvatar_ids_wf db header avatarImage :
  ids_wf db → ids_wf (updateAvatar db header avatarImage).1.
Proof.
  intros [Hu Hm]. unfold updateAvatar.
  apply authMiddleware_ind; [done|]. intros user _.
  repeat case_match; try done. simpl. split; [|done]. simpl.
  intros u (u' & Hin & ->)%(elem_of_alter_key User.id); [by apply Hu|done].
Qed.

Lemma pushMessage_ids_wf db key msg : ids_wf db → ids_wf (pushMessage db key msg).1.
Proof.
  intros [Hu Hm]. unfold pushMessage.
  repeat case_match; try done; (split; [done|]); simpl;
    intros k; rewrite lookup_insert; case_decide; by auto.
Qed.

Ltac keeps_ids :=
  apply authMiddleware_ind; [done|]; intros;
  repeat first [case_match | case_bool_decide]; simpl; done.

Lemma serve_ids_wf db r : ids_wf db → ids_wf (serve db r).
Proof.
  intros Hwf. destruct r; simpl.
  - by apply register_ids_wf.
  - by apply updateAvatar_ids_wf.
  - apply (ids_wf_frame db); [unfold createPost; keeps_ids..|done].
  - apply (ids_wf_frame db); [unfold toggleLike; keeps_ids..|done].
  - apply (ids_wf_frame db); [unfold addComment; keeps_ids..|done].
  - apply (ids_wf_frame db); [unfold sendRequest; keeps_ids..|done].
  - apply (ids_wf_frame db); [unfold acceptRequest; keeps_ids..|done].
  - apply (ids_wf_frame db); [unfold declineRequest; keeps_ids..|done].
  - unfold sendTextMessage. apply authMiddleware_ind; [done|]. intros.
    case_match; [done|]. by apply pushMessage_ids_wf.
  - unfold sendVoiceMessage. apply authMiddleware_ind; [done|]. intros.
    case_match; [done|]. by apply pushMessage_ids_wf.
Qed.

Lemma run_ids_wf db rs : ids_wf db → ids_wf (run db rs).
Proof.
  revert db. induction rs as [|r rs IH]; intros db Hwf; [done|].
  simpl. by apply IH, serve_ids_wf.
Qed.

Lemma reachable_ids_wf db : reachable db → ids_wf db.
Proof.
  intros [rs ->]. apply run_ids_wf. split; [by intros u ?%elem_of_nil|].
  intros key H. simpl in H. by rewrite lookup_empty in H.
Qed.

(** C2. Over the identities of users, the ids of the users of any database
    reached from a fresh start, [chatId] is commutative and injective on
    unordered pairs: the keys of two different unordered pairs differ, and
    so do the keys of one user with two different users. *)
Theorem chatId_commutative_injective db a b c d :
  reachable db →
  is_user db a → is_user db b → is_user db c → is_user db d →
  chatId a b = chatId b a ∧
  (¬ ((a = c ∧ b = d) ∨ (a = d ∧ b = c)) → chatId a b ≠ chatId c d) ∧
  (b ≠ c → chatId a b ≠ chatId a c).
Proof.
  intros [Hids _]%reachable_ids_wf (ua & Hua & <-) (ub & Hub & <-)
         (uc & Huc & <-) (ud & Hud & <-).
  split_and!.
  - apply chatId_comm.
  - intros Hne Heq. apply Hne. apply chatId_inj_sep_free; [by apply Hids..|done].
  - intros Hne Heq. apply Hne. eapply chatId_inj_peer; [|done]. by apply Hids.
Qed.

Lemma run_invariant db rs : graph_invariant db → graph_invariant (run db rs).
Proof.
  revert db. induction rs as [|r rs IH]; intros db Hinv; [done|].
  simpl. by apply IH, serve_invariant.
Qed.

(** In every reachable database the friendship graph is symmetric and the
    request records mirror each other. *)
Lemma reachable_invariant db : reachable db → graph_invariant db.
Proof. intros [rs ->]. apply run_invariant, graph_invariant_initialData. Qed.

(** What [GET /api/chats/:friendId] answers in a reachable database. *)
Lemma listMessages_reads db header user friendId :
  reachable db → authenticates db header user →
  listMessages db header friendId =
    (db, Json (Own (Thread (threadOf db (chatId (User.id user) friendId))))).
Proof.
  intros Hreach Hauth.
  destruct (reachable_ids_wf db Hreach) as [Hu Hm].
  pose proof Hauth as (_ & Hne & i & Hfind).
  apply list_find_Some in Hfind as (Hin%list_elem_of_lookup_2 & _ & _).
  unfold listMessages. rewrite (authMiddleware_next _ _ _ _ Hauth).
  unfold property, threadOf.
  destruct (messages db !! _) as [[l|]|] eqn:E; [done| |].
  - apply Hm in E. by apply chatId_not_sep_free in E.
  - rewrite bool_decide_false; [done|]. apply chatId_not_prototype; [done|]. by apply Hu.
Qed.

(** C10. In a database reached from a fresh start, an authenticated user
    posting a non-empty text (or a present audio payload) to any
    [friendId] whatsoever, user or not, friend or not, is answered with
    the new message; the message is appended to the thread stored under the
    chat key of the two identifiers, which is created if it was not there. *)
Theorem messages_accept_any_peer db header user friendId payload now iso :
  reachable db →
  authenticates db header user →
  Js.falsy payload = false →
  let key := chatId (User.id user) friendId in
  let text_msg :=
    Message.mk (Js.toString now) (User.id user) payload Message.text_kind None
               iso false in
  let voice_msg :=
    Message.mk (Js.toString now) (User.id user) None Message.voice_kind payload
               iso false in
  let sent_text := sendTextMessage db header friendId payload now iso in
  let sent_voice := sendVoiceMessage db header friendId payload now iso in
  sent_text.2 = Json text_msg ∧
  threadOf sent_text.1 key = threadOf db key ++ [text_msg] ∧
  sent_voice.2 = Json voice_msg ∧
  threadOf sent_voice.1 key = threadOf db key ++ [voice_msg].
Proof.
  intros Hreach Hauth Hpayload key text_msg voice_msg sent_text sent_voice.
  destruct (reachable_ids_wf db Hreach) as [Hu Hm].
  pose proof Hauth as (_ & Hne & i & Hfind).
  apply list_find_Some in Hfind as (Hin%list_elem_of_lookup_2 & _ & _).
  assert (Hobj : messages db !! key ≠ Some EmptyObject).
  { intros H%Hm. by apply chatId_not_sep_free in H. }
  assert (Hproto : key ∉ object_prototype_keys).
  { apply chatId_not_prototype; [done|]. by apply Hu. }
  subst sent_text sent_voice. unfold sendTextMessage, sendVoiceMessage.
  rewrite !(authMiddleware_next _ _ _ _ Hauth), Hpayload.
  fold key text_msg voice_msg.
  rewrite !(pushMessage_appends _ _ _ Hobj Hproto). simpl.
  split_and!; [done | apply threadOf_insert | done | apply threadOf_insert].
Qed.

(** ** The theorems at work on the sample databases *)

Lemma alice_authenticated db :
  users db = [alice; bob] → authenticates db (Some "1") alice.
Proof. intros Hu. split_and!; [done..|]. exists 0. by rewrite Hu. Qed.

Lemma bob_authenticated db :
  users db = [alice; bob] → authenticates db (Some "2") bob.
Proof. intros Hu. split_and!; [done..|]. exists 1. by rewrite Hu. Qed.

Lemma bare_users_symmetric : symmetric bare_users.
Proof. intros a b. split; inversion 1. Qed.

Lemma bare_users_mirror_consistent : mirror_consistent bare_users.
Proof. intros a b. split; inversion 1. Qed.

Lemma graph_requests_keep_symmetry_witness :
  Forall (λ db', symmetric db' ∧ mirror_consistent db')
    (trace bare_users
       [ SendRequest (Some "1") (Some "2"); AcceptRequest (Some "2") "1";
         DeclineRequest (Some "1") "2" ]).
Proof.
  apply graph_requests_keep_symmetry.
  - repeat constructor.
  - exact bare_users_symmetric.
  - exact bare_users_mirror_consistent.
Defined.

Lemma chatId_commutative_injective_witness :
  chatId "1" "2" = chatId "2" "1" ∧
  chatId "1" "2" ≠ chatId "3" "1" ∧
  chatId "1" "2" ≠ chatId "1" "3".
Proof.
  assert (Hreach : reachable three_users) by by eexists.
  assert (H1 : is_user three_users "1").
  { exists alice. split; [|done]. apply list_elem_of_lookup. by exists 0. }
  assert (H2 : is_user three_users "2").
  { exists bob. split; [|done]. apply list_elem_of_lookup. by exists 1. }
  assert (H3 : is_user three_users "3").
  { exists carol. split; [|done]. apply list_elem_of_lookup. by exists 2. }
  destruct (chatId_commutative_injective three_users "1" "2" "3" "1"
              Hreach H1 H2 H3 H1) as (Hcomm & Hpairs & Hpeer).
  split_and!; [exact Hcomm|apply Hpairs|apply Hpeer].
  - intros [[? _]|[_ ?]]; discriminate.
  - discriminate.
Defined.

Lemma acceptRequest_clears_request_witness :
  let db' := (acceptRequest request_pending (Some "2") "1").1 in
  "1" ∈ receivedOf request_pending "2" ∧ "2" ∈ sentOf request_pending "1" ∧
  ("1" ∉ receivedOf db' "2") ∧ ("2" ∉ sentOf db' "1") ∧
  "1" ∈ friendsOf db' "2" ∧ "2" ∈ friendsOf db' "1" ∧
  ∀ x, x ∈ friendsOf db' x ↔ x ∈ friendsOf request_pending x.
Proof.
  assert (Hpending : "1" ∈ receivedOf request_pending "2").
  { vm_compute. by constructor. }
  split; [exact Hpending|]. split; [vm_compute; by constructor|].
  apply (acceptRequest_clears_request request_pending (Some "2") bob "1").
  - by apply bob_authenticated.
  - discriminate.
  - exact Hpending.
Defined.

Lemma sendRequest_idempotent_witness :
  let once := sendRequest two_users (Some "1") (Some "2") in
  once.2 = Json success ∧
  sendRequest once.1 (Some "1") (Some "2") = (once.1, Json success).
Proof.
  apply (sendRequest_idempotent two_users (Some "1") alice "2").
  - by apply alice_authenticated.
  - discriminate.
  - exists bob. split; [|reflexivity]. apply list_elem_of_lookup. by exists 1.
Defined.

Lemma declineRequest_never_sent_witness :
  let r := declineRequest bare_users (Some "1") "2" in
  r.2 = Json success ∧ friends r.1 = friends bare_users ∧
  ∀ u, friendsOf r.1 u = friendsOf bare_users u ∧
       sentOf r.1 u = sentOf bare_users u ∧
       receivedOf r.1 u = receivedOf bare_users u.
Proof.
  apply (declineRequest_never_sent bare_users (Some "1") alice "2").
  - by apply alice_authenticated.
  - exact bare_users_mirror_consistent.
  - inversion 1.
Defined.


Lemma createPost_empty_or_appended_witness :
  (createPost two_users (Some "1") None (Some "") 5 6).1 = two_users ∧
  ∃ post, createPost two_users (Some "1") (Some "hello") None 5 6 =
            (set_posts (posts two_users ++ [post]) two_users, Json post) ∧
          Post.author post = "alice".
Proof.
  pose proof (alice_authenticated two_users eq_refl) as Hauth.
  split.
  - destruct (createPost_empty_or_appended two_users (Some "1") alice None (Some "")
                5 6 Hauth) as (_ & Hempty & _).
    rewrite Hempty; [done|]. split; [by left | by right].
  - destruct (createPost_empty_or_appended two_users (Some "1") alice (Some "hello")
                None 5 6 Hauth) as (_ & _ & Hpost).
    destruct Hpost as (post & Hr & _ & Hauthor & _).
    + intros [[?|?] _]; discriminate.
    + by exists post.
Defined.

Lemma listPosts_sorted_stable_witness :
  Post.text <$> posts three_posts = [Some "first"; Some "second"; Some "third"] ∧
  Post.createdAt <$> posts three_posts = [7; 7; 9]%Z ∧
  ∃ l, listPosts three_posts (Some "1") = (three_posts, Json l) ∧
       Post.text <$> l = [Some "third"; Some "first"; Some "second"] ∧
       l ≡ₚ posts three_posts ∧
       StronglySorted (λ p q, (Post.createdAt q ≤ Post.createdAt p)%Z) l ∧
       ∀ t, filter (λ p, Post.createdAt p = t) l =
            filter (λ p, Post.createdAt p = t) (posts three_posts).
Proof.
  split; [reflexivity|]. split; [reflexivity|].
  destruct (listPosts_sorted_stable three_posts (Some "1") alice
              (alice_authenticated three_posts eq_refl))
    as (l & Hl & Hperm & Hsorted & Hstable).
  exists l. split_and!; [exact Hl| |exact Hperm|exact Hsorted|exact Hstable].
  vm_compute in Hl. by injection Hl as <-.
Defined.

Lemma messages_accept_any_peer_witness :
  let key := chatId "1" "nobody" in
  let sent_text := sendTextMessage two_users (Some "1") "nobody" (Some "hi") 7 "t" in
  let sent_voice := sendVoiceMessage two_users (Some "1") "nobody" (Some "hi") 7 "t" in
  sent_text.2 = Json (Message.mk "7" "1" (Some "hi") Message.text_kind None "t" false) ∧
  threadOf sent_text.1 key =
    threadOf two_users key ++
    [Message.mk "7" "1" (Some "hi") Message.text_kind None "t" false] ∧
  sent_voice.2 = Json (Message.mk "7" "1" None Message.voice_kind (Some "hi") "t" false) ∧
  threadOf sent_voice.1 key =
    threadOf two_users key ++
    [Message.mk "7" "1" None Message.voice_kind (Some "hi") "t" false].
Proof.
  apply (messages_accept_any_peer two_users (Some "1") alice "nobody" (Some "hi") 7 "t").
  - by eexists.
  - by apply alice_authenticated.
  - reflexivity.
Defined.

(** * Beyond the graph, feed and chat claims *)

(** ** One request, one step *)

Lemma authenticates_is_user db header user :
  authenticates db header user → user ∈ users db ∧ is_user db (User.id user).
Proof.
  intros (_ & _ & i & Hfind).
  apply list_find_Some in Hfind as (Hin%list_elem_of_lookup_2 & _ & _).
  split; [done|]. by exists user.
Qed.

Lemma list_find_is_user db id r :
  list_find (λ u, User.id u = id) (users db) = Some r → is_user db id.
Proof.
  destruct r as [i u]. intros (Hin%list_elem_of_lookup_2 & Hid & _)%list_find_Some.
  by exists u.
Qed.

Lemma pushMessage_step db userId friendId msg :
  is_user db userId → userId ≠ "" →
  Message.senderId msg = userId → Message.read msg = false →
  payload_ok msg →
  step db (pushMessage db (chatId userId friendId) msg).1.
Proof.
  intros Hu Hne Hs Hr Hp. unfold pushMessage, property.
  destruct (messages db !! chatId userId friendId) as [[l|]|] eqn:E; simpl.
  - replace l with (threadOf db (chatId userId friendId))
      by (unfold threadOf; by rewrite E).
    apply step_message; try done. by rewrite E.
  - constructor.
  - case_bool_decide; simpl; [constructor|].
    pose proof (step_message db userId friendId msg Hu Hne Hs Hr Hp) as Hstep.
    unfold threadOf in Hstep. rewrite E in Hstep. by apply Hstep.
Qed.

Lemma serve_step db r : step db (serve db r).
Proof.
  destruct r; simpl.
  - unfold register.
    destruct username as [name|], password as [pass|]; try constructor.
    destruct (Js.falsy (Some name)) eqn:En; [constructor|].
    destruct (Js.falsy (Some pass)) eqn:Ep; [constructor|]. simpl.
    case_bool_decide as Hex; [constructor|]. simpl.
    apply step_register.
    + simpl in En. by apply bool_decide_eq_false in En.
    + simpl in Ep. by apply bool_decide_eq_false in Ep.
    + intros u Hu Hname. apply Hex, Exists_exists. eauto.
  - unfold updateAvatar. apply authMiddleware_ind; [constructor|]. intros user _.
    destruct (Js.falsy avatarImage); [constructor|].
    destruct (list_find _ _) as [[i u]|]; [|constructor]. simpl.
    by apply step_avatar.
  - unfold createPost. apply authMiddleware_ind; [constructor|]. intros user _.
    destruct (_ && _); [constructor|]. simpl. by apply step_post.
  - unfold toggleLike. apply authMiddleware_ind; [constructor|]. intros user _.
    destruct (list_find _ _) as [[i p]|]; [|constructor]. simpl. apply step_like.
  - unfold addComment. apply authMiddleware_ind; [constructor|]. intros user _.
    destruct text as [txt|]; [|constructor].
    destruct (Js.falsy _); [constructor|].
    destruct (list_find _ _) as [[i p]|]; [|constructor]. simpl. apply step_comment.
  - unfold sendRequest. apply authMiddleware_ind; [constructor|].
    intros user [_ Hu]%authenticates_is_user.
    destruct toUserId as [to|]; [|constructor].
    case_bool_decide; [constructor|].
    destruct (list_find _ _) as [r|] eqn:E; [|constructor]. simpl.
    apply step_send; [done| by eapply list_find_is_user |done].
  - unfold acceptRequest. apply authMiddleware_ind; [constructor|].
    intros user [_ Hu]%authenticates_is_user. simpl. by apply step_accept.
  - unfold declineRequest. apply authMiddleware_ind; [constructor|].
    intros user [_ Hu]%authenticates_is_user. simpl. by apply step_decline.
  - unfold sendTextMessage. apply authMiddleware_ind; [constructor|].
    intros user Hauth. destruct (authenticates_is_user _ _ _ Hauth) as [_ Hu].
    destruct Hauth as (_ & Hne & _).
    destruct (Js.falsy text) eqn:Ht; [constructor|]. by apply pushMessage_step.
  - unfold sendVoiceMessage. apply authMiddleware_ind; [constructor|].
    intros user Hauth. destruct (authenticates_is_user _ _ _ Hauth) as [_ Hu].
    destruct Hauth as (_ & Hne & _).
    destruct (Js.falsy audioData) eqn:Ht; [constructor|]. by apply pushMessage_step.
Qed.

(** An invariant of every step holds along every run. *)
Lemma run_preserves (P : Db → Prop) :
  (∀ db db', step db db' → P db → P db') →
  ∀ db rs, P db → P (run db rs).
Proof.
  intros Hstep db rs. revert db.
  induction rs as [|r rs IH]; intros db HP; [done|].
  simpl. apply IH. eapply Hstep; [apply serve_step|done].
Qed.

Lemma reachable_preserves (P : Db → Prop) :
  P initialData →
  (∀ db db', step db db' → P db → P db') →
  ∀ db, reachable db → P db.
Proof. intros H0 Hstep db [rs ->]. by apply run_preserves. Qed.

(** ** Requests without a session *)

(** X1. A request to a protected route whose [x-user-id] header is missing,
    empty or the id of no user leaves the database as it was. *)
Theorem unauthenticated_changes_nothing db r header :
  header_of r = Some header →
  (∀ user, ¬ authenticates db header user) →
  serve db r = db.
Proof.
  intros Hh Hno.
  destruct r; simpl in Hh; simplify_eq; simpl;
    match goal with
    | |- (?handler).1 = db => unfold updateAvatar, createPost, toggleLike,
        addComment, sendRequest, acceptRequest, declineRequest,
        sendTextMessage, sendVoiceMessage
    end;
    (apply authMiddleware_ind; [done|]; intros user Hauth; by destruct (Hno user)).
Qed.

Lemma stranger_not_authenticated db id :
  list_find (λ u, User.id u = id) (users db) = None →
  ∀ user, ¬ authenticates db (Some id) user.
Proof.
  intros Hnone user ([= ->] & _ & i & Hfind). by rewrite Hfind in Hnone.
Qed.

Lemma unauthenticated_changes_nothing_witness :
  serve two_users (AcceptRequest (Some "9") "1") = two_users ∧
  serve two_users (SendTextMessage None "2" (Some "hi") 7 "t") = two_users.
Proof.
  split.
  - apply (unauthenticated_changes_nothing _ _ (Some "9")); [done|].
    by apply stranger_not_authenticated.
  - apply (unauthenticated_changes_nothing _ _ None); [done|].
    intros user (Hh & _). discriminate.
Defined.

(** ** Accounts *)

Lemma register_success db username password now db' u :
  register db username password now = (db', Json u) →
  ∃ name pass,
    username = Some name ∧ password = Some pass ∧ name ≠ "" ∧ pass ≠ "" ∧
    (∀ v, v ∈ users db → User.username v ≠ name) ∧
    u = User.mk (Js.toString now) name pass (Js.initial name) None "" ∧
    db' = mkDb (users db ++ [u]) (posts db)
               (friends db ++ [Friends.mk (Js.toString now) []])
               (friendRequests db ++ [FR.mk (Js.toString now) [] []])
               (<[Js.toString now := EmptyObject]> (messages db)).
Proof.
  unfold register.
  destruct username as [name|], password as [pass|]; try done.
  destruct (Js.falsy (Some name)) eqn:En; [done|].
  destruct (Js.falsy (Some pass)) eqn:Ep; [done|]. simpl.
  case_bool_decide as Hex; [done|]. intros [= <- <-].
  exists name, pass. split_and!; try done.
  - simpl in En. by apply bool_decide_eq_false in En.
  - simpl in Ep. by apply bool_decide_eq_false in Ep.
  - intros v Hv Hname. apply Hex, Exists_exists. eauto.
Qed.



(** X3. After a successful registration, logging in with the same username
    and password answers the public view of the new user, and logging in
    under that username with any other password is refused. *)
Theorem register_then_login db name pass now db' u :
  register db (Some name) (Some pass) now = (db', Json u) →
  login db' (Some name) (Some pass) = (db', Json (publicView u)) ∧
  ∀ other, other ≠ Some pass →
    login db' (Some name) other = (db', Status 400 "Неверные данные").
Proof.
  intros (name' & pass' & [= <-] & [= <-] & _ & _ & Hfree & Hu & Hdb)%register_success.
  assert (Hnone : ∀ password,
    list_find (λ v, Some (User.username v) = Some name ∧
                    Some (User.password v) = password) (users db) = None).
  { intros password. apply list_find_None, Forall_forall.
    intros v Hv [[= Hname] _]. by apply (Hfree v). }
  split.
  - unfold login. rewrite Hdb. simpl. rewrite list_find_app_r by done.
    simpl. rewrite decide_True by (by rewrite Hu). done.
  - intros other Hother. unfold login. rewrite Hdb at 1. simpl.
    rewrite list_find_app_r by done. simpl.
    rewrite decide_False; [done|]. rewrite Hu. simpl. intros [_ ?]. congruence.
Qed.

Lemma register_then_login_witness :
  login two_users (Some "bob") (Some "b") = (two_users, Json (publicView bob)) ∧
  login two_users (Some "bob") (Some "x") = (two_users, Status 400 "Неверные данные").
Proof.
  destruct (register_then_login
    (register initialData (Some "alice") (Some "a") 1).1 "bob" "b" 2 two_users bob eq_refl)
    as [Hok Hbad].
  split; [exact Hok | by apply Hbad].
Defined.

Lemma fmap_alter_preserved {A B} (g : A → B) (f : A → A) i (l : list A) :
  (∀ x, g (f x) = g x) → g <$> alter f i l = g <$> l.
Proof.
  intros Hg. apply list_eq. intros j. rewrite !list_lookup_fmap.
  destruct (decide (j = i)) as [->|].
  - rewrite list_lookup_alter_eq. destruct (l !! i); simpl; by rewrite ?Hg.
  - by rewrite list_lookup_alter_ne.
Qed.

Lemma credentials_username u v : credentials u = credentials v → User.username u = User.username v.
Proof. by intros [= _ ? _ _]. Qed.

Lemma credentials_id u v : credentials u = credentials v → User.id u = User.id v.
Proof. by intros [= ? _ _ _]. Qed.

(** X4. Usernames stay unique: whatever requests are served, no two users
    of the database carry the same username if none did before. *)
Theorem usernames_stay_unique db rs :
  NoDup (User.username <$> users db) →
  NoDup (User.username <$> users (run db rs)).
Proof.
  intros Hinit.
  apply (run_preserves (λ d, NoDup (User.username <$> users d))); [|done].
  clear. intros db db' Hstep Hnd.
  destruct Hstep; simpl; try done.
  - rewrite fmap_app. apply NoDup_app. split_and!; [done| |apply NoDup_singleton].
    intros x (u & -> & Hu)%list_elem_of_fmap [= Hx]%list_elem_of_singleton.
    by eapply H1.
  - rewrite fmap_alter_preserved; [done|]. intros u. by apply credentials_username.
Qed.

Lemma usernames_stay_unique_witness :
  NoDup (User.username <$> users (run initialData
    [ Register (Some "alice") (Some "a") 1; Register (Some "alice") (Some "b") 2;
      Register (Some "bob") (Some "b") 2; UpdateAvatar (Some "1") (Some "img") ])).
Proof. apply usernames_stay_unique. simpl. apply NoDup_nil_2. Defined.

Lemma step_credentials db db' :
  step db db' → credentials <$> users db `prefix_of` credentials <$> users db'.
Proof.
  intros Hstep. destruct Hstep; simpl; try done.
  - rewrite fmap_app. by apply prefix_app_r.
  - by rewrite fmap_alter_preserved.
Qed.

Lemma run_credentials db rs :
  credentials <$> users db `prefix_of` credentials <$> users (run db rs).
Proof.
  revert db. induction rs as [|r rs IH]; intros db; [done|]. simpl.
  etrans; [apply step_credentials, serve_step|apply IH].
Qed.

Lemma list_find_prefix_fmap {A B} (g : A → B) (Q : B → Prop)
    `{∀ b, Decision (Q b)} (l l' : list A) i x :
  g <$> l `prefix_of` g <$> l' →
  list_find (Q ∘ g) l = Some (i, x) →
  ∃ x', list_find (Q ∘ g) l' = Some (i, x') ∧ g x' = g x.
Proof.
  intros [k Hk] Hfind.
  assert (Hl : list_find Q (g <$> l) = Some (i, g x)).
  { rewrite list_find_fmap, Hfind. done. }
  apply (list_find_app_l _ _ k) in Hl. rewrite <- Hk, list_find_fmap in Hl.
  apply fmap_Some in Hl as ([j x'] & Hx' & [= -> Hg]). by exists x'.
Qed.

(** X5. Accounts are never deleted or renamed: the list of (id, username,
    password, glyph) of the users only grows at its end.  So a login that
    succeeds keeps succeeding with the same id, and an [x-user-id] that
    authenticates keeps authenticating the same account, after any further
    requests. *)
Theorem accounts_persist db rs :
  credentials <$> users db `prefix_of` credentials <$> users (run db rs) ∧
  (∀ username password id name avatar img,
     login db username password = (db, Json (id, name, avatar, img)) →
     ∃ img', login (run db rs) username password =
               (run db rs, Json (id, name, avatar, img'))) ∧
  (∀ header user,
     authenticates db header user →
     ∃ user', authenticates (run db rs) header user' ∧
              credentials user' = credentials user).
Proof.
  pose proof (run_credentials db rs) as Hpre. split_and!; [done|..].
  - intros username password id name avatar img. unfold login.
    destruct (list_find _ (users db)) as [[i u]|] eqn:Hfind; [|done].
    intros [= <- <- <- <-].
    destruct (list_find_prefix_fmap credentials
      (λ c, Some c.1.1.2 = username ∧ Some c.1.2 = password)
      (users db) (users (run db rs)) i u Hpre) as (u' & Hfind' & Hc).
    { erewrite list_find_ext; [exact Hfind|]. done. }
    erewrite list_find_ext; [rewrite Hfind'|done].
    unfold publicView. injection Hc as -> -> _ ->. by eexists.
  - intros header user (Hh & Hne & i & Hfind).
    destruct (list_find_prefix_fmap credentials (λ c, c.1.1.1 = User.id user)
      (users db) (users (run db rs)) i user Hpre) as (u' & Hfind' & Hc).
    { erewrite list_find_ext; [exact Hfind|]. done. }
    exists u'. split; [|done].
    pose proof (credentials_id _ _ Hc) as Hid.
    split_and!; [by rewrite Hid| by rewrite Hid|]. exists i. rewrite Hid.
    erewrite list_find_ext; [exact Hfind'|]. done.
Qed.

(** A username that sits at one position only stays there, alone, along
    every run: the position keeps its account and later registrations
    cannot take the name. *)
Lemma username_stays_put db rs name n :
  (∃ u, users db !! n = Some u ∧ User.username u = name) →
  (∀ j u, users db !! j = Some u → User.username u = name → j = n) →
  ∀ j u, users (run db rs) !! j = Some u → User.username u = name → j = n.
Proof.
  intros Hn Honly.
  apply (run_preserves (λ d,
    (∃ u, users d !! n = Some u ∧ User.username u = name) ∧
    ∀ j u, users d !! j = Some u → User.username u = name → j = n)); [|done].
  clear. intros db db' Hstep [(un & Hun & Hname) Honly].
  destruct Hstep; simpl; try (split; by eauto).
  - split.
    + exists un. split; [|done]. by apply lookup_app_l_Some.
    + intros j u [Hj|[_ Hj]]%lookup_app_Some; [by eauto|].
      apply list_lookup_singleton_Some in Hj as [_ <-]. simpl. intros ->.
      destruct (H1 un); [by eapply list_elem_of_lookup_2|done].
  - assert (Hf : ∀ u, User.username (f u) = User.username u).
    { intros u. by apply credentials_username. }
    split.
    + destruct (decide (n = i)) as [->|].
      * exists (f un). rewrite list_lookup_alter_eq, Hun. by rewrite Hf.
      * exists un. by rewrite list_lookup_alter_ne.
    + intros j u Hj Hu. destruct (decide (j = i)) as [->|].
      * rewrite list_lookup_alter_eq in Hj.
        apply fmap_Some in Hj as (u0 & Hj & ->). rewrite Hf in Hu. by eauto.
      * rewrite list_lookup_alter_ne in Hj by done. by eauto.
Qed.

(** X6. Two registrations that read the same clock value give both users the
    same id.  The header always resolves to the first user with an id, so
    from then on, whatever requests follow, no request is ever authenticated
    as the second of the two. *)
Theorem same_clock_same_id db name1 pass1 name2 pass2 now db1 u1 db2 u2 :
  register db (Some name1) (Some pass1) now = (db1, Json u1) →
  register db1 (Some name2) (Some pass2) now = (db2, Json u2) →
  User.id u2 = User.id u1 ∧ u2 ∈ users db2 ∧
  ∀ rs header user,
    authenticates (run db2 rs) header user →
    User.username user ≠ User.username u2.
Proof.
  intros (? & ? & [= <-] & [= <-] & _ & _ & Hfree1 & Hu1 & Hdb1)%register_success.
  intros (? & ? & [= <-] & [= <-] & _ & _ & Hfree2 & Hu2 & Hdb2)%register_success.
  assert (Husers1 : users db1 = users db ++ [u1]) by by rewrite Hdb1.
  assert (Husers2 : users db2 = users db ++ [u1; u2]).
  { rewrite Hdb2. simpl. rewrite Husers1. by rewrite <- app_assoc. }
  assert (Hlen1 : users db2 !! length (users db) = Some u1).
  { rewrite Husers2. by rewrite list_lookup_middle. }
  assert (Hlen2 : users db2 !! S (length (users db)) = Some u2).
  { rewrite Husers2. rewrite lookup_app_r by lia.
    by replace (S _ - _) with 1 by lia. }
  split_and!.
  - by rewrite Hu1, Hu2.
  - by eapply list_elem_of_lookup_2.
  - intros rs header user (_ & _ & i & Hfind) Hname.
    apply list_find_Some in Hfind as (Hi & _ & Hleast).
    assert (Hi2 : i = S (length (users db))).
    { apply (username_stays_put db2 rs (User.username u2) _) with (u := user);
        [by eauto| |done..].
      intros j u Hj Hu. destruct (decide (j < length (users db1))) as [Hlt|Hge].
      - assert (Hj1 : users db1 !! j = Some u).
        { rewrite Husers2 in Hj. rewrite Husers1.
          change [u1; u2] with ([u1] ++ [u2]) in Hj. rewrite app_assoc in Hj.
          rewrite lookup_app_l in Hj; [done|by rewrite <- Husers1]. }
        destruct (Hfree2 u); [by eapply list_elem_of_lookup_2|].
        rewrite Hu. by rewrite Hu2.
      - apply lookup_lt_Some in Hj. rewrite Husers2 in Hj. rewrite Husers1 in Hge.
        rewrite !length_app in *. simpl in *. lia. }
    subst i.
    destruct (run_credentials db2 rs) as [k Hk].
    assert (Hc : ∀ j v, users db2 !! j = Some v →
              ∃ v', users (run db2 rs) !! j = Some v' ∧ credentials v' = credentials v).
    { intros j v Hj.
      assert (H : (credentials <$> users (run db2 rs)) !! j = Some (credentials v)).
      { rewrite Hk. apply lookup_app_l_Some. by rewrite list_lookup_fmap, Hj. }
      rewrite list_lookup_fmap in H. apply fmap_Some in H as (v' & Hv' & Hcv).
      by exists v'. }
    destruct (Hc _ _ Hlen1) as (u1' & Hu1' & Hc1).
    destruct (Hc _ _ Hlen2) as (u2' & Hu2' & Hc2).
    rewrite Hi in Hu2'. injection Hu2' as <-.
    apply (Hleast (length (users db)) u1'); [done|lia|].
    rewrite (credentials_id _ _ Hc1), (credentials_id _ _ Hc2). by rewrite Hu1, Hu2.
Qed.

Lemma same_clock_same_id_witness :
  let db1 := (register initialData (Some "alice") (Some "a") 5).1 in
  let r2 := register db1 (Some "bob") (Some "b") 5 in
  (∃ u2, r2.2 = Json u2 ∧ User.id u2 = "5" ∧ User.username u2 = "bob" ∧
         ∀ rs header user, authenticates (run r2.1 rs) header user →
                           User.username user ≠ User.username u2).
Proof.
  eexists. split; [reflexivity|]. split; [reflexivity|]. split; [reflexivity|].
  eapply (same_clock_same_id initialData "alice" "a" "bob" "b" 5); reflexivity.
Defined.

(** The avatar handler, for an authenticated caller and an image. *)
Lemma updateAvatar_success db header user img :
  authenticates db header user → Js.falsy img = false →
  ∃ i, users db !! i = Some user ∧
    let user' := User.mk (User.id user) (User.username user) (User.password user)
                         (User.avatar user) img (User.bio user) in
    updateAvatar db header img = (set_users (<[i := user']> (users db)) db, Json img) ∧
    authenticates (set_users (<[i := user']> (users db)) db) header user'.
Proof.
  intros Hauth Himg. pose proof Hauth as (Hh & Hne & i & Hfind).
  pose proof Hfind as (Hi & _ & _)%list_find_Some.
  exists i. split; [done|]. intros user'.
  unfold updateAvatar. rewrite (authMiddleware_next _ _ _ _ Hauth), Himg, Hfind.
  pose proof (alter_find User.id
    (λ u, User.mk (User.id u) (User.username u) (User.password u)
                  (User.avatar u) img (User.bio u))
    (User.id user) (users db) i user (User.id user) (λ _, eq_refl) Hfind) as Hfind'.
  rewrite decide_True in Hfind' by done.
  rewrite (alter_as_insert _ _ _ _ Hi) in Hfind' |- *. split; [done|].
  split_and!; [done..|]. by exists i.
Qed.

(** X7. For an authenticated caller the avatar route answers 400 and changes
    nothing when the image is missing or empty.  Otherwise it replaces the
    avatar image of the caller's record and of nothing else, and the profile
    route then shows the new image beside the unchanged id, username and
    glyph. *)
Theorem updateAvatar_then_me db header user img :
  authenticates db header user →
  let r := updateAvatar db header img in
  (Js.falsy img = true → r = (db, Status 400 "Нет изображения")) ∧
  (Js.falsy img = false →
   r.2 = Json img ∧
   me r.1 header =
     (r.1, Json (User.id user, User.username user, User.avatar user, img)) ∧
   (∃ i, users db !! i = Some user ∧
         users r.1 =
           <[i := User.mk (User.id user) (User.username user) (User.password user)
                          (User.avatar user) img (User.bio user)]> (users db)) ∧
   posts r.1 = posts db ∧ friends r.1 = friends db ∧
   friendRequests r.1 = friendRequests db ∧ messages r.1 = messages db).
Proof.
  intros Hauth r. split.
  - intros Himg. subst r. unfold updateAvatar.
    by rewrite (authMiddleware_next _ _ _ _ Hauth), Himg.
  - intros Himg.
    destruct (updateAvatar_success _ _ _ _ Hauth Himg) as (i & Hi & Hr & Hauth').
    subst r. rewrite Hr. simpl. split_and!; try done.
    + unfold me. by rewrite (authMiddleware_next _ _ _ _ Hauth').
    + by exists i.
Qed.

Lemma updateAvatar_then_me_witness :
  let r := updateAvatar two_users (Some "2") (Some "png") in
  r.2 = Json (Some "png") ∧
  me r.1 (Some "2") = (r.1, Json ("2", "bob", "B", Some "png")) ∧
  updateAvatar two_users (Some "2") None = (two_users, Status 400 "Нет изображения").
Proof.
  destruct (updateAvatar_then_me two_users (Some "2") bob (Some "png")
              (bob_authenticated two_users eq_refl)) as [_ Hok].
  destruct (updateAvatar_then_me two_users (Some "2") bob None
              (bob_authenticated two_users eq_refl)) as [Hbad _].
  destruct (Hok eq_refl) as (H1 & H2 & _).
  split_and!; [exact H1 | exact H2 | by apply Hbad].
Defined.

(** X8. The author fields of a post are a snapshot: after a change of
    avatar the posts already in the store are as they were, and a post the
    caller creates next carries the new image. *)
Theorem posts_snapshot_avatar db header user img text image now_id now_created :
  authenticates db header user →
  Js.falsy img = false →
  Js.falsy text && Js.falsy image = false →
  let db1 := (updateAvatar db header img).1 in
  posts db1 = posts db ∧
  ∃ post, createPost db1 header text image now_id now_created =
            (set_posts (posts db ++ [post]) db1, Json post) ∧
          Post.authorAvatarImage post = img ∧
          Post.author post = User.username user ∧
          Post.authorId post = User.id user.
Proof.
  intros Hauth Himg Hpost.
  destruct (updateAvatar_success _ _ _ _ Hauth Himg) as (i & Hi & Hr & Hauth').
  simpl in Hr, Hauth'. rewrite Hr. simpl. split; [done|].
  unfold createPost. rewrite (authMiddleware_next _ _ _ _ Hauth'), Hpost. simpl.
  eexists. by split_and!.
Qed.

Lemma posts_snapshot_avatar_witness :
  let db1 := (updateAvatar one_post (Some "1") (Some "png")).1 in
  posts db1 = posts one_post ∧
  ∃ post, createPost db1 (Some "1") (Some "again") None 8 9 =
            (set_posts (posts one_post ++ [post]) db1, Json post) ∧
          Post.authorAvatarImage post = Some "png" ∧
          Post.author post = "alice" ∧ Post.authorId post = "1".
Proof.
  apply (posts_snapshot_avatar one_post (Some "1") alice (Some "png") (Some "again")
           None 8 9); [|done..].
  by apply alice_authenticated.
Defined.

(** ** More of the feed *)

(** X9. For an authenticated caller the comment route checks the text
    first: a missing or empty text is answered 400 even for an unknown post.
    With a text, an unknown post is answered 404.  Otherwise the comment,
    carrying the caller's id, username, glyph and avatar image, is appended
    to the comments of the post the id resolves to, nothing else in the
    database changes, and the comment is the answer. *)
Theorem addComment_outcomes db header user postId text now iso :
  authenticates db header user →
  let r := addComment db header postId text now iso in
  (Js.falsy text = true → r = (db, Status 400 "Пустой комментарий")) ∧
  (Js.falsy text = false →
   list_find (λ p, Post.id p = postId) (posts db) = None →
   r = (db, Status 404 "Пост не найден")) ∧
  (∀ txt i post,
     text = Some txt → txt ≠ "" →
     list_find (λ p, Post.id p = postId) (posts db) = Some (i, post) →
     let comment :=
       Comment.mk (Js.toString now) (User.id user) (User.username user)
                  (User.avatar user) (User.avatarImage user) txt iso in
     r = (set_posts
            (<[i := Post.set_comments (Post.comments post ++ [comment]) post]>
               (posts db)) db,
          Json comment)).
Proof.
  intros Hauth r. subst r. unfold addComment.
  rewrite (authMiddleware_next _ _ _ _ Hauth). split_and!.
  - intros Htext. destruct text; [by rewrite Htext|done].
  - intros Htext Hfind. destruct text; [|done]. by rewrite Htext, Hfind.
  - intros txt i post -> Htxt Hfind. simpl.
    rewrite bool_decide_false by done. rewrite Hfind.
    apply list_find_Some in Hfind as (Hi & _ & _).
    by rewrite (alter_as_insert _ _ _ _ Hi).
Qed.

Lemma addComment_outcomes_witness :
  addComment one_post (Some "2") "5" None 9 "t" =
    (one_post, Status 400 "Пустой комментарий") ∧
  addComment one_post (Some "2") "6" (Some "nice") 9 "t" =
    (one_post, Status 404 "Пост не найден") ∧
  ∃ post, posts one_post !! 0 = Some post ∧
    addComment one_post (Some "2") "5" (Some "nice") 9 "t" =
      (set_posts
         (<[0 := Post.set_comments
                   [Comment.mk "9" "2" "bob" "B" None "nice" "t"] post]>
            (posts one_post)) one_post,
       Json (Comment.mk "9" "2" "bob" "B" None "nice" "t")).
Proof.
  pose proof (bob_authenticated one_post eq_refl) as Hauth.
  destruct (addComment_outcomes one_post (Some "2") bob "5" None 9 "t" Hauth)
    as (Hempty & _ & _).
  destruct (addComment_outcomes one_post (Some "2") bob "6" (Some "nice") 9 "t" Hauth)
    as (_ & Hunknown & _).
  destruct (addComment_outcomes one_post (Some "2") bob "5" (Some "nice") 9 "t" Hauth)
    as (_ & _ & Hok).
  split_and!; [by apply Hempty | by apply Hunknown |].
  eexists. split; [reflexivity|]. by apply (Hok "nice" 0).
Defined.

(** A relation that every step respects holds between the ends of a run. *)
Lemma run_related (R : Db → Db → Prop) :
  (∀ db, R db db) → (∀ a b c, R a b → R b c → R a c) →
  (∀ db db', step db db' → R db db') →
  ∀ db rs, R db (run db rs).
Proof.
  intros Hrefl Htrans Hstep db rs. revert db.
  induction rs as [|r rs IH]; intros db; [apply Hrefl|].
  simpl. eapply Htrans; [apply Hstep, serve_step|apply IH].
Qed.

Lemma alter_posts_grown db (f : Post.t → Post.t) i :
  (∀ p, post_grown p (f p)) → posts_grown db (set_posts (alter f i (posts db)) db).
Proof.
  intros Hf j p Hj. simpl. destruct (decide (j = i)) as [->|].
  - exists (f p). by rewrite list_lookup_alter_eq, Hj.
  - exists p. rewrite list_lookup_alter_ne by done. split; [done|]. by split.
Qed.

Lemma step_posts_grown db db' : step db db' → posts_grown db db'.
Proof.
  assert (Hsame : ∀ d, posts d = posts db → posts_grown db d).
  { intros d Hd i p Hi. exists p. rewrite Hd. split; [done|]. by split. }
  intros Hstep. destruct Hstep; try (by apply Hsame).
  - intros j p Hj. exists p. simpl. split; [|by split].
    by apply lookup_app_l_Some.
  - apply alter_posts_grown. intros p. by split.
  - apply alter_posts_grown. intros p. split; [done|]. by apply prefix_app_r.
Qed.

Lemma posts_grown_trans a b c : posts_grown a b → posts_grown b c → posts_grown a c.
Proof.
  intros Hab Hbc i p Hi.
  destruct (Hab i p Hi) as (p' & Hi' & Hh & Hc).
  destruct (Hbc i p' Hi') as (p'' & Hi'' & Hh' & Hc').
  exists p''. split; [done|]. split; [by rewrite Hh'|by etrans].
Qed.

(** X10. The feed only grows: whatever requests are served, a post stays at
    its position with its id, author snapshot, text, image and creation
    time, and the comments it had remain, in order, the first of its
    comments. *)
Theorem posts_persist db rs i p :
  posts db !! i = Some p →
  ∃ p', posts (run db rs) !! i = Some p' ∧
        postHead p' = postHead p ∧
        Post.comments p `prefix_of` Post.comments p'.
Proof.
  revert i p. fold (posts_grown db (run db rs)).
  apply (run_related posts_grown).
  - intros d i p Hi. exists p. split; [done|]. by split.
  - apply posts_grown_trans.
  - apply step_posts_grown.
Qed.

Lemma posts_persist_witness :
  ∃ p', posts (run one_post
                 [ AddComment (Some "2") "5" (Some "nice") 9 "t";
                   ToggleLike (Some "2") "5";
                   CreatePost (Some "2") None (Some "img") 10 10 ]) !! 0 = Some p' ∧
        Post.text p' = Some "hello" ∧ Post.author p' = "alice".
Proof.
  destruct (posts_persist one_post
    [ AddComment (Some "2") "5" (Some "nice") 9 "t"; ToggleLike (Some "2") "5";
      CreatePost (Some "2") None (Some "img") 10 10 ] 0
    (Post.mk "5" "1" "alice" "A" None (Some "hello") None 5 [] []) eq_refl)
    as (p' & Hp' & Hhead & _).
  exists p'. split; [done|]. by injection Hhead as _ _ -> _ _ -> _ _.
Defined.

(** X11. Like lists stay free of duplicates: if no post lists a user twice
    among its likes, none does after any requests. *)
Theorem likes_stay_unique db rs :
  Forall (λ p, NoDup (Post.likes p)) (posts db) →
  Forall (λ p, NoDup (Post.likes p)) (posts (run db rs)).
Proof.
  intros Hinit. apply (run_preserves likes_unique); [|done].
  clear. intros db db' Hstep Hu. unfold likes_unique in *.
  destruct Hstep; simpl; try done.
  - apply Forall_app. split; [done|]. apply Forall_singleton.
    rewrite H. apply NoDup_nil_2.
  - apply Forall_alter; [done|]. intros p _ Hp. simpl. by apply toggle_NoDup.
  - by apply Forall_alter.
Qed.

Lemma likes_stay_unique_witness :
  Forall (λ p, NoDup (Post.likes p))
    (posts (run one_post [ ToggleLike (Some "2") "5"; ToggleLike (Some "1") "5";
                           ToggleLike (Some "2") "5" ])).
Proof.
  apply likes_stay_unique. repeat constructor.
Defined.

Lemma sort_snoc_newest {A} (key : A → Z) (x : A) (l : list A) :
  Forall (λ y, (key y < key x)%Z) l →
  Js.sort (λ a b, (key b - key a)%Z) (l ++ [x]) =
  x :: Js.sort (λ a b, (key b - key a)%Z) l.
Proof.
  unfold Js.sort. induction 1 as [|y l Hy Hl IH]; [done|].
  simpl. rewrite IH. simpl.
  by rewrite (proj2 (Z.ltb_lt 0 (key x - key y))) by lia.
Qed.

(** X12. A post whose creation time is later than that of every post in the
    store comes first in the listing that follows its creation, in front of
    the listing as it was before. *)
Theorem createPost_listed_first db header user text image now_id now_created :
  authenticates db header user →
  Js.falsy text && Js.falsy image = false →
  Forall (λ p, (Post.createdAt p < now_created)%Z) (posts db) →
  ∃ post listed db',
    createPost db header text image now_id now_created = (db', Json post) ∧
    listPosts db header = (db, Json listed) ∧
    listPosts db' header = (db', Json (post :: listed)).
Proof.
  intros Hauth Hpost Hnew.
  set (post := Post.mk (Js.toString now_id) (User.id user) (User.username user)
                 (User.avatar user) (User.avatarImage user)
                 (Js.or_else text (Some "")) (Js.or_else image None)
                 now_created [] []).
  exists post, (Js.sort (λ a b, Post.createdAt b - Post.createdAt a)%Z (posts db)),
         (set_posts (posts db ++ [post]) db).
  split_and!.
  - unfold createPost. by rewrite (authMiddleware_next _ _ _ _ Hauth), Hpost.
  - unfold listPosts. by rewrite (authMiddleware_next _ _ _ _ Hauth).
  - unfold listPosts.
    rewrite (authMiddleware_next _ _ user) by (by apply (authenticates_users db)).
    simpl. by rewrite (sort_snoc_newest Post.createdAt).
Qed.

Lemma createPost_listed_first_witness :
  ∃ post listed db',
    createPost one_post (Some "2") (Some "later") None 6 6 = (db', Json post) ∧
    listPosts one_post (Some "2") = (one_post, Json listed) ∧
    listPosts db' (Some "2") = (db', Json (post :: listed)).
Proof.
  apply (createPost_listed_first one_post (Some "2") bob).
  - by apply bob_authenticated.
  - done.
  - repeat constructor.
Defined.

(** ** More of the relationship graph *)

(** X13. For an authenticated caller the send route answers 400 when the
    target is the caller, 404 when the target is missing or no user, and
    changes nothing in both cases.  Otherwise it records exactly one
    request: the target joins the caller's sent list, the caller joins the
    target's received list, every other pair is as before, and the
    friendship edges are untouched. *)
Theorem sendRequest_outcomes db header user toUserId :
  authenticates db header user →
  let r := sendRequest db header toUserId in
  (toUserId = Some (User.id user) →
   r = (db, Status 400 "Нельзя добавить себя")) ∧
  ((∀ to, toUserId = Some to → ¬ is_user db to) →
   r = (db, Status 404 "Пользователь не найден")) ∧
  (∀ to, toUserId = Some to → to ≠ User.id user → is_user db to →
   r.2 = Json success ∧ friends r.1 = friends db ∧
   ∀ a b,
     (b ∈ sentOf r.1 a ↔ b ∈ sentOf db a ∨ (a = User.id user ∧ b = to)) ∧
     (a ∈ receivedOf r.1 b ↔ a ∈ receivedOf db b ∨ (a = User.id user ∧ b = to))).
Proof.
  intros Hauth r. subst r. split_and!.
  - intros ->. unfold sendRequest.
    rewrite (authMiddleware_next _ _ _ _ Hauth). by rewrite bool_decide_true.
  - intros Hno. unfold sendRequest. rewrite (authMiddleware_next _ _ _ _ Hauth).
    destruct toUserId as [to|]; [|done].
    case_bool_decide as Hself.
    { destruct (Hno to eq_refl). subst to. by apply (authenticates_is_user _ _ _ Hauth). }
    destruct (list_find _ _) as [found|] eqn:E; [|done].
    destruct (Hno to eq_refl). by eapply list_find_is_user.
  - intros to -> Hne (target & Hin & Hid).
    rewrite (sendRequest_success _ _ _ _ Hauth Hne);
      [|by apply (list_find_elem_of _ _ target)].
    simpl. split_and!; [done..|]. intros a b.
    rewrite !sentOf_entry, !receivedOf_entry. simpl.
    by rewrite sent_after_send, received_after_send.
Qed.

Lemma sendRequest_outcomes_witness :
  sendRequest two_users (Some "1") (Some "1") =
    (two_users, Status 400 "Нельзя добавить себя") ∧
  sendRequest two_users (Some "1") None =
    (two_users, Status 404 "Пользователь не найден") ∧
  (sendRequest two_users (Some "1") (Some "2")).2 = Json success.
Proof.
  destruct (sendRequest_outcomes two_users (Some "1") alice (Some "1")
              (alice_authenticated two_users eq_refl)) as (Hself & _ & _).
  destruct (sendRequest_outcomes two_users (Some "1") alice None
              (alice_authenticated two_users eq_refl)) as (_ & Hnone & _).
  destruct (sendRequest_outcomes two_users (Some "1") alice (Some "2")
              (alice_authenticated two_users eq_refl)) as (_ & _ & Hok).
  split_and!; [by apply Hself | by apply Hnone |].
  apply (Hok "2"); [done..|]. exists bob. split; [|done].
  apply list_elem_of_lookup. by exists 1.
Defined.

(** X14. For an authenticated caller the decline route always answers
    success.  It removes the declined sender from the caller's received list
    and the caller from that sender's sent list, leaves every other pending
    request and [db.friends] as they were. *)
Theorem declineRequest_removes_pair db header user fromUserId :
  authenticates db header user →
  let r := declineRequest db header fromUserId in
  r.2 = Json success ∧ friends r.1 = friends db ∧
  ∀ a b,
    (b ∈ sentOf r.1 a ↔ b ∈ sentOf db a ∧ ¬ (a = fromUserId ∧ b = User.id user)) ∧
    (a ∈ receivedOf r.1 b ↔
     a ∈ receivedOf db b ∧ ¬ (a = fromUserId ∧ b = User.id user)).
Proof.
  intros Hauth r. subst r. rewrite (declineRequest_success _ _ _ _ Hauth). simpl.
  split_and!; [done..|]. intros a b.
  rewrite !sentOf_entry, !receivedOf_entry. simpl.
  by rewrite sent_after_resolve, received_after_resolve.
Qed.

Lemma declineRequest_removes_pair_witness :
  let db := (sendRequest two_users (Some "1") (Some "2")).1 in
  let r := declineRequest db (Some "2") "1" in
  "1" ∈ receivedOf db "2" ∧ r.2 = Json success ∧
  ("1" ∉ receivedOf r.1 "2") ∧ ("2" ∉ sentOf r.1 "1").
Proof.
  intros db r.
  destruct (declineRequest_removes_pair db (Some "2") bob "1"
              (bob_authenticated db eq_refl)) as (Hr & _ & Hpairs).
  split_and!; [by apply list_elem_of_here | exact Hr | |].
  - intros H. apply (Hpairs "1" "2") in H. tauto.
  - intros H. apply (Hpairs "1" "2") in H. tauto.
Defined.

(** X15. For an authenticated caller the accept route always answers
    success, whether or not a request was pending and whether or not the
    sender is a user.  It adds the edge between caller and sender in both
    directions and no other edge, and it treats the pending requests as
    the decline route does. *)
Theorem acceptRequest_adds_one_edge db header user fromUserId :
  authenticates db header user →
  let r := acceptRequest db header fromUserId in
  r.2 = Json success ∧
  friendRequests r.1 = friendRequests (declineRequest db header fromUserId).1 ∧
  ∀ a b,
    b ∈ friendsOf r.1 a ↔
    b ∈ friendsOf db a ∨ (a = User.id user ∧ b = fromUserId) ∨
    (a = fromUserId ∧ b = User.id user).
Proof.
  intros Hauth r. subst r.
  rewrite (acceptRequest_success _ _ _ _ Hauth), (declineRequest_success _ _ _ _ Hauth).
  simpl. split_and!; [done..|]. intros a b.
  rewrite !friendsOf_entry. simpl. by rewrite friends_after_befriend.
Qed.

Lemma acceptRequest_adds_one_edge_witness :
  let r := acceptRequest two_users (Some "2") "ghost" in
  r.2 = Json success ∧ "ghost" ∈ friendsOf r.1 "2" ∧ ("1" ∉ friendsOf r.1 "2").
Proof.
  intros r.
  destruct (acceptRequest_adds_one_edge two_users (Some "2") bob "ghost"
              (bob_authenticated two_users eq_refl)) as (Hr & _ & Hedges).
  split_and!; [exact Hr | |].
  - apply (Hedges "2" "ghost"). right. by left.
  - intros H. apply (Hedges "2" "1") in H as [H|[[_ [=]]|[[=] _]]]. inversion H.
Defined.

(** X16. Registration and every other route keep the graph invariants too:
    along any run of requests of the whole API, a symmetric and
    mirror-consistent database stays so. *)
Theorem all_requests_keep_symmetry db rs :
  symmetric db → mirror_consistent db →
  symmetric (run db rs) ∧ mirror_consistent (run db rs).
Proof.
  intros Hs Hm. apply (run_invariant db rs). by split.
Qed.

Lemma all_requests_keep_symmetry_witness :
  let db := run bare_users
    [ Register (Some "carol") (Some "c") 3; SendRequest (Some "3") (Some "1");
      CreatePost (Some "1") (Some "hi") None 4 4; AcceptRequest (Some "1") "3";
      SendTextMessage (Some "3") "1" (Some "yo") 5 "t" ] in
  symmetric db ∧ mirror_consistent db.
Proof.
  apply all_requests_keep_symmetry;
    [exact bare_users_symmetric | exact bare_users_mirror_consistent].
Defined.

Lemma is_user_ids db id : is_user db id ↔ id ∈ User.id <$> users db.
Proof.
  rewrite list_elem_of_fmap. unfold is_user. split.
  - intros (u & Hu & <-). eauto.
  - intros (u & -> & Hu). eauto.
Qed.

Lemma step_is_user db db' id : step db db' → is_user db id → is_user db' id.
Proof.
  intros Hstep. rewrite !is_user_ids. destruct Hstep; simpl; try done.
  - rewrite fmap_app, elem_of_app. auto.
  - rewrite fmap_alter_preserved; [done|]. intros u. by apply credentials_id.
Qed.

(** How one step can add to the request lists. *)
Lemma step_requests db db' a b :
  step db db' →
  (b ∈ sentOf db' a → b ∈ sentOf db a ∨ (is_user db a ∧ is_user db b ∧ a ≠ b)) ∧
  (a ∈ receivedOf db' b →
   a ∈ receivedOf db b ∨ (is_user db a ∧ is_user db b ∧ a ≠ b)).
Proof.
  intros Hstep. destruct Hstep; try (split; by left).
  - rewrite !sentOf_entry, !receivedOf_entry. simpl.
    rewrite !(entry_of_snoc FR.userId freshFR) by done. auto.
  - rewrite !sentOf_entry, !receivedOf_entry. simpl.
    rewrite sent_after_send, received_after_send.
    split; (intros [?|[-> ->]]; [by left|right; by split_and!]).
  - rewrite !sentOf_entry, !receivedOf_entry. simpl.
    rewrite sent_after_resolve, received_after_resolve. split; intros [? _]; by left.
  - rewrite !sentOf_entry, !receivedOf_entry. simpl.
    rewrite sent_after_resolve, received_after_resolve. split; intros [? _]; by left.
Qed.

(** X17. Nobody ever has a pending request to themselves: if no user is in
    their own sent or received list, none is after any requests. *)
Theorem no_self_request db rs :
  (∀ u, (u ∉ sentOf db u) ∧ (u ∉ receivedOf db u)) →
  ∀ u, (u ∉ sentOf (run db rs) u) ∧ (u ∉ receivedOf (run db rs) u).
Proof.
  apply (run_preserves (λ d, ∀ u, (u ∉ sentOf d u) ∧ (u ∉ receivedOf d u))).
  clear. intros db db' Hstep Hinv u.
  destruct (step_requests db db' u u Hstep) as [Hs Hr].
  destruct (Hinv u) as [Hs0 Hr0].
  split; intros H; [apply Hs in H|apply Hr in H]; destruct H as [?|(_ & _ & ?)]; done.
Qed.

Lemma no_self_request_witness :
  ("1" ∉ sentOf (run bare_users
          [ SendRequest (Some "1") (Some "1"); SendRequest (Some "1") (Some "2");
            AcceptRequest (Some "1") "1" ]) "1") ∧
  ("1" ∉ receivedOf (run bare_users
          [ SendRequest (Some "1") (Some "1"); SendRequest (Some "1") (Some "2");
            AcceptRequest (Some "1") "1" ]) "1").
Proof.
  apply (no_self_request bare_users). intros u. split; inversion 1.
Defined.

(** X18. Pending requests only ever join users: if every sender and every
    receiver recorded in the request lists is a user, the same holds after
    any requests. *)
Theorem requests_between_users db rs :
  (∀ a b, (b ∈ sentOf db a → is_user db a ∧ is_user db b) ∧
          (a ∈ receivedOf db b → is_user db a ∧ is_user db b)) →
  ∀ a b, (b ∈ sentOf (run db rs) a →
          is_user (run db rs) a ∧ is_user (run db rs) b) ∧
         (a ∈ receivedOf (run db rs) b →
          is_user (run db rs) a ∧ is_user (run db rs) b).
Proof.
  apply (run_preserves (λ d, ∀ a b,
    (b ∈ sentOf d a → is_user d a ∧ is_user d b) ∧
    (a ∈ receivedOf d b → is_user d a ∧ is_user d b))).
  clear. intros db db' Hstep Hinv a b.
  destruct (step_requests db db' a b Hstep) as [Hs Hr].
  destruct (Hinv a b) as [Hs0 Hr0].
  split; intros H; [apply Hs in H|apply Hr in H];
    (destruct H as [H|(Ha & Hb & _)];
      [apply Hs0 in H || apply Hr0 in H; destruct H as [Ha Hb]|]);
    split; by eapply step_is_user.
Qed.

Lemma requests_between_users_witness :
  let db := run bare_users
    [ SendRequest (Some "1") (Some "2"); SendRequest (Some "2") (Some "ghost");
      DeclineRequest (Some "2") "ghost" ] in
  "2" ∈ sentOf db "1" ∧ is_user db "1" ∧ is_user db "2".
Proof.
  intros db.
  destruct (requests_between_users bare_users
    [ SendRequest (Some "1") (Some "2"); SendRequest (Some "2") (Some "ghost");
      DeclineRequest (Some "2") "ghost" ]
    ltac:(intros a b; split; inversion 1) "1" "2") as [Hsent _].
  assert (Hin : "2" ∈ sentOf db "1") by apply list_elem_of_here.
  split; [exact Hin|]. exact (Hsent Hin).
Defined.

Section EntriesForall.
Context {A : Type} (key : A → string) (fresh : string → A) (P : A → Prop).
Hypothesis fresh_ok : ∀ k, P (fresh k).

Lemma get_entry_Forall k l : Forall P l → Forall P (get_entry key fresh k l).2.
Proof.
  intros Hl. unfold get_entry. destruct (find_entry key k l) as [[i e]|]; [done|].
  simpl. apply Forall_app. split; [done|]. by apply Forall_singleton.
Qed.

Lemma entry_of_Forall k l : Forall P l → P (entry_of key fresh k l).
Proof.
  intros Hl. unfold entry_of, find_entry.
  destruct (list_find _ l) as [[i e]|] eqn:E; [|done].
  apply list_find_Some in E as (Hi & _ & _).
  rewrite Forall_forall in Hl. apply Hl. by eapply list_elem_of_lookup_2.
Qed.

(** The two-entry update keeps what holds of every entry. *)
Lemma two_entries_Forall (f g : A → A) k1 k2 l :
  (∀ e, P e → P (f e)) → (∀ e, P e → P (g e)) → Forall P l →
  Forall P (let '(i, l1) := get_entry key fresh k1 l in
            let '(j, l2) := get_entry key fresh k2 l1 in
            alter g j (alter f i l2)).
Proof.
  intros Hf Hg Hl.
  pose proof (get_entry_Forall k1 l Hl) as H1.
  destruct (get_entry key fresh k1 l) as [i l1]. simpl in H1.
  pose proof (get_entry_Forall k2 l1 H1) as H2.
  destruct (get_entry key fresh k2 l1) as [j l2]. simpl in H2.
  apply Forall_alter; [apply Forall_alter; [done|]|]; auto.
Qed.
End EntriesForall.

Lemma push_new_NoDup x l : NoDup l → NoDup (push_new x l).
Proof.
  intros Hl. unfold push_new, Js.includes. case_bool_decide; [done|].
  apply NoDup_app. split_and!; [done| |apply NoDup_singleton].
  by intros y Hy ->%list_elem_of_singleton.
Qed.

Lemma without_NoDup x l : NoDup l → NoDup (without x l).
Proof. apply NoDup_filter. Qed.

Lemma step_graph_unique db db' : step db db' → graph_unique db → graph_unique db'.
Proof.
  intros Hstep [Hf Hr]. destruct Hstep; try (by split); split; simpl; try done.
  - apply Forall_app. split; [done|]. apply Forall_singleton. apply NoDup_nil_2.
  - apply Forall_app. split; [done|]. apply Forall_singleton.
    split; apply NoDup_nil_2.
  - apply (two_entries_Forall FR.userId freshFR); try done.
    + intros k. split; apply NoDup_nil_2.
    + intros e [??]. split; simpl; auto using push_new_NoDup.
    + intros e [??]. split; simpl; auto using push_new_NoDup.
  - apply (two_entries_Forall Friends.userId freshFriends); try done.
    + intros k. apply NoDup_nil_2.
    + intros e ?. simpl. auto using push_new_NoDup.
    + intros e ?. simpl. auto using push_new_NoDup.
  - apply (two_entries_Forall FR.userId freshFR); try done.
    + intros k. split; apply NoDup_nil_2.
    + intros e [??]. split; simpl; auto using without_NoDup.
    + intros e [??]. split; simpl; auto using without_NoDup.
  - apply (two_entries_Forall FR.userId freshFR); try done.
    + intros k. split; apply NoDup_nil_2.
    + intros e [??]. split; simpl; auto using without_NoDup.
    + intros e [??]. split; simpl; auto using without_NoDup.
Qed.

(** X19. Friend lists and request lists stay free of duplicates: if no
    record of [db.friends] or [db.friendRequests] lists a user twice, then
    after any requests every user's friends, sent and received lists are
    free of duplicates. *)
Theorem graph_lists_stay_unique db rs :
  Forall (λ e, NoDup (Friends.friends e)) (friends db) →
  Forall (λ e, NoDup (FR.sent e) ∧ NoDup (FR.received e)) (friendRequests db) →
  ∀ u, NoDup (friendsOf (run db rs) u) ∧ NoDup (sentOf (run db rs) u) ∧
       NoDup (receivedOf (run db rs) u).
Proof.
  intros Hf Hr.
  assert (Hu : graph_unique (run db rs)).
  { apply (run_preserves graph_unique); [|by split].
    intros d d'. apply step_graph_unique. }
  destruct Hu as [Hf' Hr']. intros u.
  rewrite friendsOf_entry, sentOf_entry, receivedOf_entry.
  pose proof (entry_of_Forall Friends.userId freshFriends _
    (λ _, NoDup_nil_2 (A:=string)) u _ Hf') as H1.
  pose proof (entry_of_Forall FR.userId freshFR _
    (λ _, conj (NoDup_nil_2 (A:=string)) (NoDup_nil_2 (A:=string))) u _ Hr') as [H2 H3].
  done.
Qed.

Lemma graph_lists_stay_unique_witness :
  let db := run two_users
    [ SendRequest (Some "1") (Some "2"); SendRequest (Some "1") (Some "2");
      AcceptRequest (Some "2") "1"; AcceptRequest (Some "2") "1" ] in
  friendsOf db "1" = ["2"] ∧
  NoDup (friendsOf db "1") ∧ NoDup (sentOf db "1") ∧ NoDup (receivedOf db "1").
Proof.
  intros db. split; [reflexivity|].
  apply (graph_lists_stay_unique two_users).
  - repeat constructor.
  - repeat constructor.
Defined.

(** X20. The friends route answers with exactly the friends of the caller
    that are users of the database, in the order of the friend list; ids of
    no user are dropped, and every answer is the public view of a user. *)
Theorem listFriends_drops_strangers db header user :
  authenticates db header user →
  ∃ views, listFriends db header = (db, Json views) ∧
    views.*1.*1.*1 =
      filter (λ id, id ∈ User.id <$> users db) (friendsOf db (User.id user)) ∧
    ∀ v, v ∈ views → ∃ u, u ∈ users db ∧ v = publicView u.
Proof.
  intros Hauth. unfold listFriends. rewrite (authMiddleware_next _ _ _ _ Hauth).
  eexists. split; [done|]. fold (friendsOf db (User.id user)).
  generalize (friendsOf db (User.id user)). intros l. split.
  - induction l as [|id l IH]; [done|]. simpl.
    destruct (list_find _ _) as [[i u]|] eqn:E; simpl.
    + apply list_find_Some in E as (Hi & <- & _).
      rewrite filter_cons_True.
      * f_equal. exact IH.
      * apply list_elem_of_fmap. exists u. split; [done|].
        by eapply list_elem_of_lookup_2.
    + rewrite filter_cons_False; [done|].
      intros (u & -> & Hu)%list_elem_of_fmap.
      apply list_find_None in E. rewrite Forall_forall in E. by apply (E u).
  - intros v (u & -> & Hu)%list_elem_of_fmap.
    apply list_elem_of_omap in Hu as (id & _ & Hfind).
    apply fmap_Some in Hfind as ([i u'] & Hfind & ->).
    apply list_find_Some in Hfind as (Hi & _ & _).
    exists u'. split; [by eapply list_elem_of_lookup_2|done].
Qed.

Lemma listFriends_drops_strangers_witness :
  let db := run two_users [ AcceptRequest (Some "2") "ghost"; AcceptRequest (Some "2") "1" ] in
  friendsOf db "2" = ["ghost"; "1"] ∧
  ∃ views, listFriends db (Some "2") = (db, Json views) ∧ views.*1.*1.*1 = ["1"].
Proof.
  intros db. split; [reflexivity|].
  destruct (listFriends_drops_strangers db (Some "2") bob
              (bob_authenticated db eq_refl)) as (views & Hr & Hids & _).
  exists views. split; [exact Hr|]. rewrite Hids. reflexivity.
Defined.

(** ** More of the chats *)

Lemma threadOf_frame db db' key :
  messages db' = messages db → threadOf db' key = threadOf db key.
Proof. intros H. unfold threadOf. by rewrite H. Qed.

Lemma thread_key_not_id db key now :
  threads_wf db → key = Js.toString now → threadOf db key = [].
Proof.
  intros Hwf ->. unfold threadOf.
  destruct (messages db !! _) as [[l|]|] eqn:E; [|done..].
  destruct (Hwf _ _ E). apply toString_sep_free.
Qed.

Lemma step_threads db db' :
  step db db' → threads_wf db →
  threads_wf db' ∧ ∀ key, threadOf db key `prefix_of` threadOf db' key.
Proof.
  intros Hstep Hwf. destruct Hstep; try (split; [done|by intros key]).
  - split.
    + intros key l. simpl. rewrite lookup_insert. case_decide; [done|]. apply Hwf.
    + intros key. destruct (decide (key = Js.toString now)) as [Hk|Hk].
      * rewrite (thread_key_not_id db key now) by done. apply prefix_nil.
      * unfold threadOf. simpl. by rewrite lookup_insert_ne.
  - split.
    + intros key l. simpl. rewrite lookup_insert. case_decide as Hk; [|apply Hwf].
      intros _. rewrite <- Hk. apply chatId_not_sep_free.
    + intros key. destruct (decide (key = chatId userId friendId)) as [->|Hk].
      * rewrite threadOf_insert. by apply prefix_app_r.
      * unfold threadOf. simpl. by rewrite lookup_insert_ne.
Qed.

Lemma run_threads db rs :
  threads_wf db →
  threads_wf (run db rs) ∧ ∀ key, threadOf db key `prefix_of` threadOf (run db rs) key.
Proof.
  apply (run_related (λ d d', threads_wf d →
    threads_wf d' ∧ ∀ key, threadOf d key `prefix_of` threadOf d' key)).
  - intros d Hd. split; [done|]. by intros key.
  - intros a b c Hab Hbc Ha. destruct (Hab Ha) as [Hb Hpre].
    destruct (Hbc Hb) as [Hc Hpre']. split; [done|]. intros key.
    etrans; [apply Hpre|apply Hpre'].
  - apply step_threads.
Qed.

Lemma reachable_threads_wf db : reachable db → threads_wf db.
Proof.
  intros [rs ->]. apply run_threads. intros key l H. simpl in H.
  by rewrite lookup_empty in H.
Qed.

(** X21. Threads are append-only: in a database reached from a fresh start,
    whatever requests follow, the messages a thread holds remain, in order,
    the first messages of that thread. *)
Theorem threads_only_grow db rs key :
  reachable db → threadOf db key `prefix_of` threadOf (run db rs) key.
Proof. intros Hreach. by apply run_threads, reachable_threads_wf. Qed.

Lemma reachable_serve db r : reachable db → reachable (serve db r).
Proof.
  intros [rs ->]. exists (rs ++ [r]). unfold run. by rewrite foldl_app.
Qed.

Lemma reachable_run db rs : reachable db → reachable (run db rs).
Proof.
  intros [rs0 ->]. exists (rs0 ++ rs). unfold run. by rewrite foldl_app.
Qed.

Lemma two_users_reachable : reachable two_users.
Proof. by eexists. Qed.

Lemma threads_only_grow_witness :
  ∃ later,
    threadOf (run (serve two_users (SendTextMessage (Some "1") "2" (Some "hi") 7 "t"))
                [ Register (Some "carol") (Some "c") 8;
                  SendVoiceMessage (Some "2") "1" (Some "wav") 9 "t" ]) "1_2" =
    [Message.mk "7" "1" (Some "hi") Message.text_kind None "t" false] ++ later.
Proof.
  apply (threads_only_grow
    (serve two_users (SendTextMessage (Some "1") "2" (Some "hi") 7 "t"))
    [ Register (Some "carol") (Some "c") 8;
      SendVoiceMessage (Some "2") "1" (Some "wav") 9 "t" ] "1_2").
  apply reachable_serve, two_users_reachable.
Defined.

Lemma step_messages_wf db db' : step db db' → messages_wf db → messages_wf db'.
Proof.
  intros Hstep Hwf.
  assert (Hframe : ∀ d, step db d → messages d = messages db → messages_wf d).
  { intros d Hd Hm key m. rewrite (threadOf_frame db d key Hm).
    intros (Hu & Hr & Hp)%Hwf. split_and!; [|done..]. by eapply step_is_user. }
  pose proof Hstep as Hstep'.
  destruct Hstep; try (by apply Hframe).
  - intros key m Hin.
    assert (Hold : m ∈ threadOf db key).
    { revert Hin. unfold threadOf. simpl. rewrite lookup_insert.
      case_decide; [by intros ?%elem_of_nil|done]. }
    apply Hwf in Hold as (Hu & Hr & Hp). split_and!; [|done..].
    by eapply step_is_user.
  - intros key m Hin.
    destruct (decide (key = chatId userId friendId)) as [->|Hk].
    + rewrite threadOf_insert in Hin.
      apply elem_of_app in Hin as [Hin | ->%list_elem_of_singleton].
      * apply Hwf in Hin as (Hu & Hr & Hp). by split_and!.
      * rewrite H1. split_and!; [done..|]. by exists friendId.
    + assert (Hold : m ∈ threadOf db key).
      { revert Hin. unfold threadOf. simpl. by rewrite lookup_insert_ne. }
      by apply Hwf in Hold.
Qed.

(** X22. In a database reached from a fresh start every stored message is
    unread, was sent by a user of the database, and lies in a thread whose
    key is the chat key of its sender and some peer. *)
Theorem messages_come_from_users db key m :
  reachable db → m ∈ threadOf db key →
  is_user db (Message.senderId m) ∧ Message.read m = false ∧
  ∃ peer, key = chatId (Message.senderId m) peer.
Proof.
  intros Hreach. revert key m. fold (messages_wf db).
  apply (reachable_preserves messages_wf); [| |done].
  - intros key m Hin. by apply elem_of_nil in Hin.
  - apply step_messages_wf.
Qed.

Lemma messages_come_from_users_witness :
  let db := serve two_users (SendVoiceMessage (Some "2") "elsewhere" (Some "wav") 9 "t") in
  let m := Message.mk "9" "2" None Message.voice_kind (Some "wav") "t" false in
  is_user db (Message.senderId m) ∧ Message.read m = false ∧
  ∃ peer, "2_elsewhere" = chatId (Message.senderId m) peer.
Proof.
  intros db m. apply (messages_come_from_users db "2_elsewhere" m).
  - apply reachable_serve, two_users_reachable.
  - by apply list_elem_of_here.
Defined.

(** X23. Seen from one user, two different peers never share a thread,
    whatever the peer strings are: for the id of a user of a database
    reached from a fresh start and two different strings, users or not,
    taken as peers, the two chat keys differ. *)
Theorem peer_threads_distinct db a b c :
  reachable db → is_user db a → b ≠ c → chatId a b ≠ chatId a c.
Proof.
  intros [Hids _]%reachable_ids_wf (ua & Hua & <-) Hne Heq.
  apply Hne. eapply chatId_inj_peer; [|done]. by apply Hids.
Qed.

Lemma peer_threads_distinct_witness :
  chatId "1" "2_3" ≠ chatId "1" "2" ∧ chatId "1" "1_2" ≠ chatId "1" "nobody".
Proof.
  assert (Ha : is_user two_users "1").
  { exists alice. split; [|done]. apply list_elem_of_lookup. by exists 0. }
  split.
  - apply (peer_threads_distinct two_users "1" "2_3" "2" two_users_reachable Ha).
    discriminate.
  - apply (peer_threads_distinct two_users "1" "1_2" "nobody" two_users_reachable Ha).
    discriminate.
Defined.

(** The last message of a chat whose key is neither bound to an empty object
    nor a name of [Object.prototype]. *)
Lemma lastMessage_thread db key :
  messages db !! key ≠ Some EmptyObject → key ∉ object_prototype_keys →
  lastMessage (messages db) key = from_option Last Null (last (threadOf db key)).
Proof.
  intros Hobj Hproto. unfold lastMessage, property, threadOf.
  destruct (messages db !! key) as [[l|]|]; [done..|].
  by rewrite bool_decide_false.
Qed.

Lemma user_chat_key db header user friendId :
  reachable db → authenticates db header user →
  messages db !! chatId (User.id user) friendId ≠ Some EmptyObject ∧
  chatId (User.id user) friendId ∉ object_prototype_keys.
Proof.
  intros [Hids Hobj]%reachable_ids_wf Hauth.
  destruct (authenticates_is_user _ _ _ Hauth) as [Hin _].
  destruct Hauth as (_ & Hne & _). split.
  - intros H%Hobj. by apply chatId_not_sep_free in H.
  - apply chatId_not_prototype; [done|]. by apply Hids.
Qed.

Lemma omap_ext_in {A B} (f g : A → option B) (l : list A) :
  (∀ x, x ∈ l → f x = g x) → omap f l = omap g l.
Proof.
  induction l as [|x l IH]; intros H; [done|].
  change (omap f (x :: l)) with (match f x with Some y => y :: omap f l | None => omap f l end).
  change (omap g (x :: l)) with (match g x with Some y => y :: omap g l | None => omap g l end).
  rewrite (H x) by apply list_elem_of_here.
  rewrite IH; [done|]. intros y Hy. apply H. by apply list_elem_of_further.
Qed.

(** The chats route in a reachable database. *)
Lemma listChats_reachable db header user :
  reachable db → authenticates db header user →
  listChats db header =
    (db, Json (omap (λ friendId,
                 (λ found, (publicView found.2,
                            from_option Last Null
                              (last (threadOf db (chatId (User.id user) friendId)))))
                 <$> list_find (λ u, User.id u = friendId) (users db))
              (friendsOf db (User.id user)))).
Proof.
  intros Hreach Hauth. unfold listChats. rewrite (authMiddleware_next _ _ _ _ Hauth).
  fold (friendsOf db (User.id user)). do 2 f_equal.
  apply omap_ext_in. intros friendId _.
  destruct (user_chat_key db header user friendId Hreach Hauth) as [Hobj Hproto].
  rewrite (lastMessage_thread _ _ Hobj Hproto).
  by destruct (list_find _ _) as [[i u]|].
Qed.

(** X24. The chats route lists the same friends as the friends route, in the
    same order.  In a database reached from a fresh start the last message
    it shows for a friend is the last message of the thread of the two, or
    [null] when that thread is empty or was never created; it is never
    [undefined]. *)
Theorem listChats_reads db header user :
  authenticates db header user →
  ∃ chats views,
    listChats db header = (db, Json chats) ∧
    listFriends db header = (db, Json views) ∧
    chats.*1 = views ∧
    (reachable db →
     chats =
       omap (λ friendId,
               (λ found, (publicView found.2,
                          from_option Last Null
                            (last (threadOf db (chatId (User.id user) friendId)))))
               <$> list_find (λ u, User.id u = friendId) (users db))
            (friendsOf db (User.id user))).
Proof.
  intros Hauth.
  destruct (listChats db header) as [db0 reply] eqn:Hchats.
  revert Hchats. unfold listChats, listFriends.
  rewrite !(authMiddleware_next _ _ _ _ Hauth). intros [= <- <-].
  eexists _, _. split_and!; [done..| |].
  - fold (friendsOf db (User.id user)). generalize (friendsOf db (User.id user)).
    intros l. induction l as [|id l IH]; [done|]. simpl.
    destruct (list_find _ _) as [[i u]|]; simpl; [|exact IH]. f_equal. exact IH.
  - intros Hreach.
    pose proof (listChats_reachable db header user Hreach Hauth) as H.
    unfold listChats in H. rewrite (authMiddleware_next _ _ _ _ Hauth) in H.
    by injection H.
Qed.

Lemma listChats_reads_witness :
  let db := run two_users
    [ AcceptRequest (Some "2") "1"; AcceptRequest (Some "2") "ghost";
      SendTextMessage (Some "1") "2" (Some "hi") 7 "t" ] in
  ∃ chats views,
    listChats db (Some "2") = (db, Json chats) ∧
    listFriends db (Some "2") = (db, Json views) ∧
    chats.*1 = views ∧ length chats = 1.
Proof.
  intros db.
  destruct (listChats_reads db (Some "2") bob (bob_authenticated db eq_refl))
    as (chats & views & Hc & Hv & Heq & Hlast).
  exists chats, views. split_and!; [done..|].
  rewrite Hlast; [reflexivity|]. apply reachable_run, two_users_reachable.
Defined.

(** X25. A message reaches the peer: in a database reached from a fresh
    start, after a user sent a text to another user, that user reads the
    thread of the two with the new message at its end, and, if the sender is
    among their friends, sees the sender in the chat list with the new
    message as last message. *)
Theorem message_reaches_peer db ha a hb b text now iso :
  reachable db →
  authenticates db ha a → authenticates db hb b →
  Js.falsy text = false →
  let msg :=
    Message.mk (Js.toString now) (User.id b) text Message.text_kind None iso false in
  let db' := (sendTextMessage db hb (User.id a) text now iso).1 in
  listMessages db' ha (User.id b) =
    (db', Json (Own (Thread (threadOf db (chatId (User.id a) (User.id b)) ++ [msg])))) ∧
  (User.id b ∈ friendsOf db (User.id a) →
   ∃ chats, listChats db' ha = (db', Json chats) ∧ (publicView b, Last msg) ∈ chats).
Proof.
  intros Hreach Ha Hb Htext msg db'.
  assert (Hreach' : reachable db').
  { apply (reachable_serve db (SendTextMessage hb (User.id a) text now iso) Hreach). }
  destruct (user_chat_key db hb b (User.id a) Hreach Hb) as [Hobj Hproto].
  assert (Hdb' : db' = set_messages
    (<[chatId (User.id a) (User.id b) :=
         Thread (threadOf db (chatId (User.id a) (User.id b)) ++ [msg])]>
       (messages db)) db).
  { subst db'. unfold sendTextMessage.
    rewrite (authMiddleware_next _ _ _ _ Hb), Htext.
    rewrite (pushMessage_appends _ _ _ Hobj Hproto). simpl.
    by rewrite (chatId_comm (User.id b) (User.id a)). }
  assert (Ha' : authenticates db' ha a).
  { apply (authenticates_users db); [by rewrite Hdb'|done]. }
  assert (Hthread : threadOf db' (chatId (User.id a) (User.id b)) =
                    threadOf db (chatId (User.id a) (User.id b)) ++ [msg]).
  { rewrite Hdb'. apply threadOf_insert. }
  split.
  - by rewrite (listMessages_reads db' ha a (User.id b) Hreach' Ha'), Hthread.
  - intros Hfriend. eexists. split; [by apply listChats_reachable|].
    apply list_elem_of_omap. exists (User.id b). split.
    + unfold friendsOf. rewrite Hdb'. exact Hfriend.
    + destruct Hb as (_ & _ & i & Hfind).
      replace (users db') with (users db) by (by rewrite Hdb').
      rewrite Hfind, Hthread, last_snoc. done.
Qed.

Lemma message_reaches_peer_witness :
  let db := run two_users [ AcceptRequest (Some "1") "2" ] in
  let msg := Message.mk "7" "2" (Some "hi") Message.text_kind None "t" false in
  let db' := (sendTextMessage db (Some "2") "1" (Some "hi") 7 "t").1 in
  listMessages db' (Some "1") "2" = (db', Json (Own (Thread [msg]))) ∧
  ∃ chats, listChats db' (Some "1") = (db', Json chats) ∧
           (publicView bob, Last msg) ∈ chats.
Proof.
  intros db msg db'.
  destruct (message_reaches_peer db (Some "1") alice (Some "2") bob (Some "hi") 7 "t")
    as [Hread Hchats].
  - apply reachable_run, two_users_reachable.
  - by apply alice_authenticated.
  - by apply bob_authenticated.
  - done.
  - split; [exact Hread|]. apply Hchats. by apply list_elem_of_here.
Defined.

(** X26. In a database reached from a fresh start the payload of every
    stored message goes with its kind: a text message holds a non-empty text
    and no audio, a voice message holds non-empty audio and no text. *)
Theorem messages_payload_by_kind db key m :
  reachable db → m ∈ threadOf db key →
  match Message.type m with
  | Message.text_kind => Js.falsy (Message.text m) = false ∧ Message.audioData m = None
  | Message.voice_kind => Js.falsy (Message.audioData m) = false ∧ Message.text m = None
  end.
Proof.
  intros Hreach. revert key m.
  apply (reachable_preserves (λ d, ∀ key m, m ∈ threadOf d key → payload_ok m));
    [| |done].
  - intros key m Hin. by apply elem_of_nil in Hin.
  - clear. intros db db' Hstep Hinv.
    assert (Hframe : ∀ d, messages d = messages db →
              ∀ key m, m ∈ threadOf d key → payload_ok m).
    { intros d Hm key m. rewrite (threadOf_frame db d key Hm). apply Hinv. }
    destruct Hstep; try (by apply Hframe).
    + intros key m. unfold threadOf. simpl. rewrite lookup_insert.
      case_decide; [by intros ?%elem_of_nil|]. apply Hinv.
    + intros key m. destruct (decide (key = chatId userId friendId)) as [->|Hk].
      * rewrite threadOf_insert.
        intros [Hin | ->%list_elem_of_singleton]%elem_of_app; [by eapply Hinv|done].
      * unfold threadOf. simpl. rewrite lookup_insert_ne by done. apply Hinv.
Qed.

Lemma messages_payload_by_kind_witness :
  let db := serve two_users (SendVoiceMessage (Some "2") "1" (Some "wav") 9 "t") in
  let m := Message.mk "9" "2" None Message.voice_kind (Some "wav") "t" false in
  m ∈ threadOf db "1_2" ∧
  Js.falsy (Message.audioData m) = false ∧ Message.text m = None.
Proof.
  intros db m.
  assert (Hin : m ∈ threadOf db "1_2") by apply list_elem_of_here.
  split; [exact Hin|].
  apply (messages_payload_by_kind db "1_2" m); [|exact Hin].
  apply reachable_serve, two_users_reachable.
Defined.

(** X27. The handshake: when one user sends a request to another and the
    other accepts it, the request is pending in between, and afterwards it
    is gone from both lists and each of the two finds the other in the
    answer of the friends route. *)
Theorem friendship_handshake db ha a hb b :
  authenticates db ha a → authenticates db hb b →
  User.id a ≠ User.id b →
  let db1 := (sendRequest db ha (Some (User.id b))).1 in
  let db2 := (acceptRequest db1 hb (User.id a)).1 in
  User.id a ∈ receivedOf db1 (User.id b) ∧
  (User.id a ∉ receivedOf db2 (User.id b)) ∧
  (User.id b ∉ sentOf db2 (User.id a)) ∧
  (∃ views, listFriends db2 ha = (db2, Json views) ∧ publicView b ∈ views) ∧
  (∃ views, listFriends db2 hb = (db2, Json views) ∧ publicView a ∈ views).
Proof.
  intros Ha Hb Hne db1 db2.
  assert (Hdb1 : db1 = set_friendRequests
    (sendRequest_records (User.id a) (User.id b) (friendRequests db)) db).
  { subst db1. rewrite (sendRequest_success _ _ _ _ Ha); [done|by auto|].
    destruct Hb as (_ & _ & i & ->). by eexists. }
  assert (Hb1 : authenticates db1 hb b).
  { apply (authenticates_users db); [by rewrite Hdb1|done]. }
  assert (Hdb2 : db2 = set_friends (befriend (User.id b) (User.id a) (friends db1))
    (set_friendRequests (resolve_records (User.id b) (User.id a) (friendRequests db1)) db1)).
  { subst db2. by rewrite (acceptRequest_success _ _ _ _ Hb1). }
  assert (Husers : users db2 = users db) by (by rewrite Hdb2, Hdb1).
  assert (Hview : ∀ h u v, authenticates db2 h u →
    (∃ j, list_find (λ w, User.id w = User.id v) (users db2) = Some (j, v)) →
    User.id v ∈ friendsOf db2 (User.id u) →
    ∃ views, listFriends db2 h = (db2, Json views) ∧ publicView v ∈ views).
  { intros h u v Hu [j Hv] Hfriend. unfold listFriends.
    rewrite (authMiddleware_next _ _ _ _ Hu). eexists. split; [done|].
    apply list_elem_of_fmap. exists v. split; [done|].
    apply list_elem_of_omap. exists (User.id v). split; [exact Hfriend|].
    by rewrite Hv. }
  split_and!.
  - rewrite Hdb1, receivedOf_entry. simpl. rewrite received_after_send. by right.
  - rewrite Hdb2, receivedOf_entry. simpl. rewrite received_after_resolve. tauto.
  - rewrite Hdb2, sentOf_entry. simpl. rewrite sent_after_resolve. tauto.
  - apply (Hview ha a b).
    + by apply (authenticates_users db).
    + rewrite Husers. destruct Hb as (_ & _ & j & Hj). by exists j.
    + rewrite Hdb2, friendsOf_entry. simpl. rewrite friends_after_befriend. auto.
  - apply (Hview hb b a).
    + by apply (authenticates_users db).
    + rewrite Husers. destruct Ha as (_ & _ & j & Hj). by exists j.
    + rewrite Hdb2, friendsOf_entry. simpl. rewrite friends_after_befriend. auto.
Qed.

Lemma friendship_handshake_witness :
  let db1 := (sendRequest two_users (Some "1") (Some "2")).1 in
  let db2 := (acceptRequest db1 (Some "2") "1").1 in
  "1" ∈ receivedOf db1 "2" ∧ ("1" ∉ receivedOf db2 "2") ∧ ("2" ∉ sentOf db2 "1") ∧
  (∃ views, listFriends db2 (Some "1") = (db2, Json views) ∧ publicView bob ∈ views) ∧
  (∃ views, listFriends db2 (Some "2") = (db2, Json views) ∧ publicView alice ∈ views).
Proof.
  apply (friendship_handshake two_users (Some "1") alice (Some "2") bob).
  - by apply alice_authenticated.
  - by apply bob_authenticated.
  - done.
Defined.
